(** * cobra: command-tree resolution and persistent-flag inheritance

    A shallow embedding of [cobra.go] (package [cobra]): the [Command]
    struct, [Find], [execute], [AddCommand], [CommandPath], the lazily
    created flag sets and [mergePersistentFlags]; further [UseLine],
    [Flag] and [persistentFlag], [ResetCommands], [ResetFlags], the
    template helpers [Gt] and [Eq], and [commentifyString] of the
    scaffolding helpers.

    Go pointers [*Command] are addresses into a heap of [Command] records,
    [nil] is [None].  Methods that only read are functions of the heap;
    methods that write run in a small state-and-panic monad.  Loops that
    climb [parent] pointers take fuel, because nothing in the code bounds
    them on a cyclic heap. *)

From Stdlib Require Import String Ascii.
From stdpp Require Import gmap strings list fin_maps.

Open Scope string_scope.
Open Scope list_scope.
Open Scope nat_scope.

(** ** Outcomes of a Go call *)

Inductive outcome (A : Type) : Type :=
| Ok (a : A)
| Panic (msg : string)
| OutOfFuel.
Arguments Ok {A} a.
Arguments Panic {A} msg.
Arguments OutOfFuel {A}.

#[global] Instance outcome_ret : MRet outcome := @Ok.
#[global] Instance outcome_bind : MBind outcome := λ A B f m,
  match m with
  | Ok a => f a
  | Panic msg => Panic msg
  | OutOfFuel => OutOfFuel
  end.

(** Messages of the Go runtime and of the package. *)
Definition nil_dereference : string :=
  "runtime error: invalid memory address or nil pointer dereference".
Definition index_out_of_range : string :=
  "runtime error: index out of range".
Definition slice_out_of_range : string :=
  "runtime error: slice bounds out of range".
Definition self_child : string := "Command can't be a child of itself".
Definition find_on_nil : string := "Called find() on a nil Command".
Definition execute_on_nil : string := "Called Execute() on a nil Command".

(** ** The flag-set collaborator *)

Module pflag.

(** Modelled from the spec: the package [github.com/spf13/pflag] is an
    external collaborator and is not among the sources.  The spec asks of
    it a set of named flags with [lookup(name)], registration of a flag
    and [visitAll].  A [*Flag] is a record carrying its own address, so
    that two flags with identical fields are still two definitions. *)
Record Flag : Type := {
  Addr : positive;
  Name : string;
  Shorthand : string;
  Usage : string;
  DefValue : string
}.

(** Modelled from the spec: a flag set is the finite map from flag names
    to flags that [pflag] keeps in its [formal] field, with the name it
    was created under and the arguments left over by the last parse.  The
    shorthand table and the output writer are not modelled. *)
Record FlagSet : Type := {
  name : string;
  formal : gmap string Flag;
  args : list string
}.

(** Modelled from the spec: [NewFlagSet], the empty set. *)
Definition NewFlagSet (n : string) : FlagSet :=
  {| name := n; formal := ∅; args := [] |}.

(** Modelled from the spec: [lookup(name) -> flag-or-absent]. *)
Definition Lookup (f : FlagSet) (n : string) : option Flag := formal f !! n.

(** Modelled from the spec: registration stores the flag under its own
    name.  The merger calls it on names that are free only. *)
Definition AddFlag (fl : Flag) (f : FlagSet) : FlagSet :=
  {| name := name f; formal := <[Name fl := fl]> (formal f); args := args f |}.

(** Modelled from the spec: whether any flag is registered. *)
Definition HasFlags (f : FlagSet) : bool := bool_decide (formal f ≠ ∅).

(** Modelled from the spec: the flags handed to the callback of
    [visitAll], every registered flag once, in an order that is fixed for
    a given set. *)
Definition VisitAll (f : FlagSet) : list Flag := (map_to_list (formal f)).*2.

(** Modelled from the spec: the positional arguments the last parse left
    unconsumed. *)
Definition Args (f : FlagSet) : list string := args f.

(** Every flag is stored under its own name: what [AddFlag] maintains
    from the empty set on. *)
Definition wf (f : FlagSet) : Prop :=
  ∀ k fl, formal f !! k = Some fl → Name fl = k.

End pflag.

(** ** The command heap *)

Definition addr := positive.
Definition CommandPtr := option addr.
Definition action := nat.
Definition error := string.

Record Command : Type := {
  name : string;
  Use : string;
  Short : string;
  Long : string;
  flags : option pflag.FlagSet;
  pflags : option pflag.FlagSet;
  Run : option action;
  commands : list CommandPtr;
  parent : CommandPtr;
  cmdr : CommandPtr;
  flagErrorBuf : option string
}.

(** The zero value of the struct with the exported fields of a literal
    [&Command{Use: ..., Run: ...}]. *)
Definition new_Command (use : string) (run : option action) : Command :=
  {| name := ""; Use := use; Short := ""; Long := "";
     flags := None; pflags := None; Run := run;
     commands := []; parent := None; cmdr := None; flagErrorBuf := None |}.

Definition set_flags (v : option pflag.FlagSet) (k : Command) : Command :=
  {| name := name k; Use := Use k; Short := Short k; Long := Long k;
     flags := v; pflags := pflags k; Run := Run k;
     commands := commands k; parent := parent k; cmdr := cmdr k;
     flagErrorBuf := flagErrorBuf k |}.

Definition set_pflags (v : option pflag.FlagSet) (k : Command) : Command :=
  {| name := name k; Use := Use k; Short := Short k; Long := Long k;
     flags := flags k; pflags := v; Run := Run k;
     commands := commands k; parent := parent k; cmdr := cmdr k;
     flagErrorBuf := flagErrorBuf k |}.

Definition set_commands (v : list CommandPtr) (k : Command) : Command :=
  {| name := name k; Use := Use k; Short := Short k; Long := Long k;
     flags := flags k; pflags := pflags k; Run := Run k;
     commands := v; parent := parent k; cmdr := cmdr k;
     flagErrorBuf := flagErrorBuf k |}.

Definition set_parent (v : CommandPtr) (k : Command) : Command :=
  {| name := name k; Use := Use k; Short := Short k; Long := Long k;
     flags := flags k; pflags := pflags k; Run := Run k;
     commands := commands k; parent := v; cmdr := cmdr k;
     flagErrorBuf := flagErrorBuf k |}.

Definition set_cmdr (v : CommandPtr) (k : Command) : Command :=
  {| name := name k; Use := Use k; Short := Short k; Long := Long k;
     flags := flags k; pflags := pflags k; Run := Run k;
     commands := commands k; parent := parent k; cmdr := v;
     flagErrorBuf := flagErrorBuf k |}.

Definition set_flagErrorBuf (v : option string) (k : Command) : Command :=
  {| name := name k; Use := Use k; Short := Short k; Long := Long k;
     flags := flags k; pflags := pflags k; Run := Run k;
     commands := commands k; parent := parent k; cmdr := cmdr k;
     flagErrorBuf := v |}.

(** What the application observes of a dispatch: the usage function and the
    run action are application code, recorded as events. *)
Inductive event : Type :=
| EvUsage (c : CommandPtr)
| EvRun (act : action) (c : CommandPtr) (args : list string).

Record state : Type := {
  heap : gmap addr Command;
  trace : list event
}.

Definition M (A : Type) : Type := state → outcome A * state.

#[global] Instance M_ret : MRet M := λ A a s, (Ok a, s).
#[global] Instance M_bind : MBind M := λ A B f m s,
  match m s with
  | (Ok a, s') => f a s'
  | (Panic msg, s') => (Panic msg, s')
  | (OutOfFuel, s') => (OutOfFuel, s')
  end.

Definition panic {A} (msg : string) : M A := λ s, (Panic msg, s).
Definition out_of_fuel {A} : M A := λ s, (OutOfFuel, s).

(** Reading through a pointer; [nil] and an address nothing was allocated
    at both fault. *)
Definition load (h : gmap addr Command) (c : CommandPtr) : outcome Command :=
  match c with
  | None => Panic nil_dereference
  | Some a =>
      match h !! a with
      | Some k => Ok k
      | None => Panic nil_dereference
      end
  end.

Definition deref (c : CommandPtr) : M Command := λ s, (load (heap s) c, s).

(** Writing a field through a pointer: [c.field = v]. *)
Definition modify (c : CommandPtr) (f : Command → Command) : M unit := λ s,
  match load (heap s) c, c with
  | Ok k, Some a => (Ok tt, {| heap := <[a := f k]> (heap s); trace := trace s |})
  | Ok _, None => (Panic nil_dereference, s)
  | Panic msg, _ => (Panic msg, s)
  | OutOfFuel, _ => (OutOfFuel, s)
  end.

Definition emit (e : event) : M unit := λ s,
  (Ok tt, {| heap := heap s; trace := trace s ++ [e] |}).

(** ** Structural queries *)

(** [Name]: the explicit name, else the first word of the use line. *)
Definition Name (c : Command) : string :=
  if decide (name c ≠ "") then name c
  else
    match String.index 0 " " (Use c) with
    | Some i => String.substring 0 i (Use c)
    | None => Use c
    end.

Definition Runnable (c : Command) : bool := bool_decide (Run c ≠ None).
Definition HasSubCommands (c : Command) : bool :=
  bool_decide (0 < length (commands c)).
Definition HasParent (c : Command) : bool := bool_decide (parent c ≠ None).

(** ** The resolver *)

Definition found : Type := CommandPtr * list string * option error.

(** The [range c.commands] loop of [Find]: [Some r] when the loop body
    returned [r], [None] when the loop ran to its end. *)
Fixpoint scan (h : gmap addr Command) (descend : CommandPtr → outcome found)
    (arg0 : string) (cmds : list CommandPtr) : option (outcome found) :=
  match cmds with
  | [] => None
  | cmd :: cmds' =>
      match load h cmd with
      | Ok k =>
          if decide (Name k = arg0) then Some (descend cmd)
          else scan h descend arg0 cmds'
      | Panic msg => Some (Panic msg)
      | OutOfFuel => Some OutOfFuel
      end
  end.

(** The tail of [Find], after the loop; [validSubCommand] is still [false]
    whenever control gets here. *)
Definition Find_tail (c : CommandPtr) (k : Command) (args : list string)
    : outcome found :=
  let validSubCommand := false in
  if negb validSubCommand && Runnable k then Ok (c, args, None)
  else Ok (None, [], None).

(** [Find]: the recursion is on [args[1:]]. *)
Fixpoint Find (h : gmap addr Command) (c : CommandPtr) (args : list string)
    {struct args} : outcome found :=
  match c with
  | None => Ok (None, [], Some find_on_nil)
  | Some _ =>
      match load h c with
      | Ok k =>
          match args with
          | arg0 :: ((_ :: _) as rest) =>
              if HasSubCommands k then
                match scan h (λ cmd, Find h cmd rest) arg0 (commands k) with
                | Some r => r
                | None => Find_tail c k args
                end
              else Find_tail c k args
          | _ => Find_tail c k args
          end
      | Panic msg => Panic msg
      | OutOfFuel => OutOfFuel
      end
  end.

(** [Find] as a step of the dispatcher: it reads the heap and writes
    nothing. *)
Definition Find_m (c : CommandPtr) (args : list string) : M found :=
  λ s, (Find (heap s) c args, s).

(** ** Lazily created flag sets *)

(** [Flags]: the local flag set, created on first access. *)
Definition Flags (c : CommandPtr) : M pflag.FlagSet :=
  k ← deref c;
  match flags k with
  | Some fs => mret fs
  | None =>
      let fs := pflag.NewFlagSet (Name k) in
      modify c (set_flags (Some fs));;
      k' ← deref c;
      (if decide (flagErrorBuf k' = None)
       then modify c (set_flagErrorBuf (Some ""))
       else mret tt);;
      mret fs
  end.

(** [PersistentFlags]: the inheritable flag set, created on first access. *)
Definition PersistentFlags (c : CommandPtr) : M pflag.FlagSet :=
  k ← deref c;
  match pflags k with
  | Some fs => mret fs
  | None =>
      let fs := pflag.NewFlagSet (Name k) in
      modify c (set_pflags (Some fs));;
      k' ← deref c;
      (if decide (flagErrorBuf k' = None)
       then modify c (set_flagErrorBuf (Some ""))
       else mret tt);;
      mret fs
  end.

Definition HasFlags (c : CommandPtr) : M bool :=
  fs ← Flags c; mret (pflag.HasFlags fs).

Definition HasPersistentFlags (c : CommandPtr) : M bool :=
  fs ← PersistentFlags c; mret (pflag.HasFlags fs).

(** ** The flag merger *)

(** The callback of [VisitAll] inside [rmerge]:
    [if c.Flags().Lookup(f.Name) == nil { c.Flags().AddFlag(f) }]. *)
Definition merge_flag (c : CommandPtr) (f : pflag.Flag) : M unit :=
  fs ← Flags c;
  if decide (pflag.Lookup fs (pflag.Name f) = None) then
    fs' ← Flags c;
    modify c (set_flags (Some (pflag.AddFlag f fs')))
  else mret tt.

Fixpoint visit (c : CommandPtr) (fls : list pflag.Flag) : M unit :=
  match fls with
  | [] => mret tt
  | f :: fls' => merge_flag c f;; visit c fls'
  end.

(** The closure [rmerge] of [mergePersistentFlags]; one unit of fuel per
    node climbed. *)
Fixpoint rmerge (fuel : nat) (c x : CommandPtr) : M unit :=
  match fuel with
  | 0 => out_of_fuel
  | S fuel' =>
      b ← HasPersistentFlags x;
      (if b : bool then
         fs ← PersistentFlags x;
         visit c (pflag.VisitAll fs)
       else mret tt);;
      k ← deref x;
      if HasParent k then rmerge fuel' c (parent k) else mret tt
  end.

Definition mergePersistentFlags (fuel : nat) (c : CommandPtr) : M unit :=
  rmerge fuel c c.

(** ** Tree construction and paths *)

(** [AddCommand]: the loop over [cmds]. *)
Fixpoint AddCommand (c : CommandPtr) (cmds : list CommandPtr) : M unit :=
  match cmds with
  | [] => mret tt
  | x :: cmds' =>
      if decide (x = c) then panic self_child
      else
        modify x (set_parent c);;
        kx ← deref x;
        kp ← deref (parent kx);
        modify x (set_cmdr (cmdr kp));;
        modify c (λ kc, set_commands (commands kc ++ [x]) kc);;
        AddCommand c cmds'
  end.

(** The [for x.HasParent()] loop of [CommandPath]; one unit of fuel per
    evaluation of the loop condition. *)
Fixpoint CommandPath_loop (fuel : nat) (h : gmap addr Command)
    (x : CommandPtr) (str : string) : outcome string :=
  match fuel with
  | 0 => OutOfFuel
  | S fuel' =>
      kx ← load h x;
      if HasParent kx then
        kp ← load h (parent kx);
        CommandPath_loop fuel' h (parent kx) (Name kp +:+ " " +:+ str)
      else Ok str
  end.

Definition CommandPath (fuel : nat) (h : gmap addr Command) (c : CommandPtr)
    : outcome string :=
  k ← load h c;
  CommandPath_loop fuel h c (Name k).

(** ** The dispatcher *)

(** [fmt.Errorf("unknown subcommand %q\nRun 'help' for usage.\n", arg)];
    the [%q] verb is rendered as the argument between double quotes. *)
Definition dquote : string := String (ascii_of_nat 34) EmptyString.
Definition newline : string := String (ascii_of_nat 10) EmptyString.
Definition unknown_subcommand (arg : string) : error :=
  "unknown subcommand " +:+ dquote +:+ arg +:+ dquote +:+ newline
    +:+ "Run 'help' for usage." +:+ newline.

(** [Usage]: calls the commander's usage function on the command. *)
Definition Usage (c : CommandPtr) : M unit :=
  k ← deref c;
  _ ← deref (cmdr k);
  emit (EvUsage c).

Section Dispatch.

(** The parser of [pflag], [FlagSet.Parse], taken as given: it returns
    the flag set after parsing, with the leftover arguments stored in
    it, and the error if any. *)
Variable Parse : pflag.FlagSet → list string → pflag.FlagSet * option error.

Definition ParseFlags (fuel : nat) (c : CommandPtr) (args : list string)
    : M (option error) :=
  mergePersistentFlags fuel c;;
  fs ← Flags c;
  let '(fs', err) := Parse fs args in
  modify c (set_flags (Some fs'));;
  mret err.

Definition execute (fuel : nat) (c : CommandPtr) (args : list string)
    : M (option error) :=
  match args with
  | [] => panic index_out_of_range
  | arg0 :: _ =>
      let err := Some (unknown_subcommand arg0) in
      match c with
      | None => mret (Some execute_on_nil)
      | Some _ =>
          '(cmd, a, e) ← Find_m c args;
          match e with
          | None =>
              err ← ParseFlags fuel cmd a;
              match err with
              | Some _ => Usage cmd;; mret err
              | None =>
                  fs ← Flags cmd;
                  let argWoFlags := pflag.Args fs in
                  k ← deref cmd;
                  match Run k with
                  | Some act => emit (EvRun act cmd argWoFlags);; mret None
                  | None => panic nil_dereference
                  end
              end
          | Some _ => mret e
          end
      end
  end.

(** A [Commander] embeds a [Command]; [embedded] is the address of that
    command, [cargs] the field [args]. *)
Record Commander : Type := {
  embedded : addr;
  cargs : list string
}.

(** [Commander.Execute]; [os_Args] is the process argument vector. *)
Definition Commander_Execute (fuel : nat) (os_Args : list string)
    (c : Commander) : M (option error) :=
  if decide (length (cargs c) = 0) then
    match os_Args with
    | _ :: rest => execute fuel (Some (embedded c)) rest
    | [] => panic slice_out_of_range
    end
  else execute fuel (Some (embedded c)) (cargs c).

End Dispatch.

(** * Predicates, specification functions and sample heaps *)

(** A child whose name differs from the token looked for. *)
Definition other_name (h : gmap addr Command) (arg0 : string) (p : CommandPtr)
    : Prop :=
  ∃ kp, load h p = Ok kp ∧ Name kp ≠ arg0.

(** A runnable root and a root that is only a container. *)
Definition runnable_root : gmap addr Command :=
  {[ 1%positive := new_Command "app [flags]" (Some 0) ]}.

Definition container_root : gmap addr Command :=
  {[ 1%positive := new_Command "app" None ]}.

(** Two children of the same name under a container root. *)
Definition twins : gmap addr Command :=
  {[ 1%positive := set_commands [Some 2; Some 3; Some 4]%positive
                     (new_Command "app" None);
     2%positive := set_parent (Some 1%positive) (new_Command "one" (Some 0));
     3%positive := set_parent (Some 1%positive) (new_Command "two x" (Some 1));
     4%positive := set_parent (Some 1%positive) (new_Command "two y" (Some 2)) ]}.

(** The state after the write [*a = k]. *)
Definition upd (a : addr) (k : Command) (s : state) : state :=
  {| heap := <[a := k]> (heap s); trace := trace s |}.

(** A pointer to a node of the heap. *)
Definition allocated (h : gmap addr Command) (x : CommandPtr) : Prop :=
  ∃ a, x = Some a ∧ is_Some (h !! a).

(** A commander's root with two standalone nodes beside it. *)
Definition three_nodes : state :=
  {| heap := {[ 1%positive := set_cmdr (Some 1%positive) (new_Command "app" None);
                2%positive := new_Command "remote [name]" (Some 0);
                3%positive := new_Command "add url" (Some 1) ]};
     trace := [] |}.

(** The chain of [parent] pointers from a node up to a node without
    parent, the node first: the list exists exactly when the chain is
    finite. *)
Inductive ancestry (h : gmap addr Command) : addr → list addr → Prop :=
| ancestry_root a k :
    h !! a = Some k → parent k = None → ancestry h a [a]
| ancestry_step a k p l :
    h !! a = Some k → parent k = Some p → ancestry h p l →
    ancestry h a (a :: l).

Definition name_of (h : gmap addr Command) (a : addr) : string :=
  match h !! a with
  | Some k => Name k
  | None => ""
  end.

(** What the loop of [CommandPath] does to its accumulator over the names
    of the ancestors, nearest first. *)
Definition prepend (names : list string) (str : string) : string :=
  fold_left (λ acc n, n +:+ " " +:+ acc) names str.

(** Two standalone nodes, made each other's child by two calls of
    [AddCommand], neither of which adds a node to itself. *)
Definition two_nodes : state :=
  {| heap := {[ 1%positive := new_Command "ping" (Some 0);
                2%positive := new_Command "pong" (Some 1) ]};
     trace := [] |}.

Definition mutual_parents : state :=
  (AddCommand (Some 2%positive) [Some 1%positive]
     (AddCommand (Some 1%positive) [Some 2%positive] two_nodes).2).2.

Definition ensure_buf (k : Command) : Command :=
  if decide (flagErrorBuf k = None) then set_flagErrorBuf (Some "") k else k.

Definition the_flags (k : Command) : pflag.FlagSet :=
  default (pflag.NewFlagSet (Name k)) (flags k).

Definition the_pflags (k : Command) : pflag.FlagSet :=
  default (pflag.NewFlagSet (Name k)) (pflags k).

(** The node after [Flags()] was called on it. *)
Definition with_flags (k : Command) : Command :=
  match flags k with
  | Some _ => k
  | None => ensure_buf (set_flags (Some (pflag.NewFlagSet (Name k))) k)
  end.

(** The node after [PersistentFlags()] was called on it. *)
Definition with_pflags (k : Command) : Command :=
  match pflags k with
  | Some _ => k
  | None => ensure_buf (set_pflags (Some (pflag.NewFlagSet (Name k))) k)
  end.

(** The target after the callback of the visit ran on flag [f]. *)
Definition merge_one (f : pflag.Flag) (k : Command) : Command :=
  let k1 := with_flags k in
  if decide (pflag.Lookup (the_flags k1) (pflag.Name f) = None)
  then set_flags (Some (pflag.AddFlag f (the_flags k1))) k1
  else k1.

Definition visit_cmd (fls : list pflag.Flag) (k : Command) : Command :=
  fold_left (λ k f, merge_one f k) fls k.

(** [c.Flags().Lookup(n)] without the side effect of creating the set. *)
Definition local_lookup (k : Command) (n : string) : option pflag.Flag :=
  fs ← flags k; pflag.Lookup fs n.

(** The first flag of that name in visiting order. *)
Fixpoint first_named (n : string) (fls : list pflag.Flag) : option pflag.Flag :=
  match fls with
  | [] => None
  | f :: fls' => if decide (pflag.Name f = n) then Some f else first_named n fls'
  end.

(** The local flag of a name at a node of the heap. *)
Definition local_flag (h : gmap addr Command) (a : addr) (n : string)
    : option pflag.Flag :=
  k ← h !! a; local_lookup k n.

(** The state after [rmerge] dealt with node [b] for target [a]. *)
Definition merge_node (a b : addr) (s : state) : state :=
  match heap s !! b with
  | Some kb =>
      let sa := upd b (with_pflags kb) s in
      match heap sa !! a with
      | Some ka => upd a (visit_cmd (pflag.VisitAll (the_pflags kb)) ka) sa
      | None => sa
      end
  | None => s
  end.

Definition merge_all (a : addr) (l : list addr) (s : state) : state :=
  fold_left (λ s b, merge_node a b s) l s.

(** A node grows: only its buffer and flag sets change, a persistent
    flag set that exists stays as it is, and a local flag that is
    defined keeps its definition. *)
Record grows (k k' : Command) : Prop := {
  grows_name : name k' = name k;
  grows_Use : Use k' = Use k;
  grows_Run : Run k' = Run k;
  grows_commands : commands k' = commands k;
  grows_parent : parent k' = parent k;
  grows_cmdr : cmdr k' = cmdr k;
  grows_pflags : ∀ fs, pflags k = Some fs → pflags k' = Some fs;
  grows_flags : ∀ n f, local_lookup k n = Some f → local_lookup k' n = Some f
}.

Definition extends (s s' : state) : Prop :=
  ∀ (a : addr) k, heap s !! a = Some k →
    ∃ k', heap s' !! a = Some k' ∧ grows k k'.

(** Node [b] has nothing left to give to target [a]. *)
Definition settled (a b : addr) (s : state) : Prop :=
  ∃ kb fs, heap s !! b = Some kb ∧ pflags kb = Some fs
    ∧ ∀ f, f ∈ pflag.VisitAll fs →
        is_Some (local_flag (heap s) a (pflag.Name f)).

Definition flag_x (a : positive) (usage : string) : pflag.Flag :=
  {| pflag.Addr := a; pflag.Name := "x"; pflag.Shorthand := "";
     pflag.Usage := usage; pflag.DefValue := "" |}.

(** The node after [k.PersistentFlags().AddFlag(f)]. *)
Definition persistent (f : pflag.Flag) (k : Command) : Command :=
  set_pflags (Some (pflag.AddFlag f (the_pflags (with_pflags k))))
    (with_pflags k).

(** The node after [k.Flags().AddFlag(f)]. *)
Definition local (f : pflag.Flag) (k : Command) : Command :=
  set_flags (Some (pflag.AddFlag f (the_flags (with_flags k))))
    (with_flags k).

Definition persistent_flag (h : gmap addr Command) (a : addr) (n : string)
    : option pflag.Flag :=
  k ← h !! a; fs ← pflags k; pflag.Lookup fs n.

Definition grandparent : Command :=
  set_commands [Some 2%positive]
    (persistent (flag_x 10 "of the grandparent") (new_Command "app" None)).

Definition parent_node : Command :=
  set_commands [Some 3%positive]
    (set_parent (Some 1%positive)
       (persistent (flag_x 20 "of the parent") (new_Command "remote" None))).

Definition child_node : Command :=
  set_parent (Some 2%positive) (new_Command "add [url]" (Some 0)).

(** Grandparent and parent both define x as a persistent flag; the child
    defines nothing. *)
Definition generations : state :=
  {| heap := {[ 1%positive := grandparent; 2%positive := parent_node;
                3%positive := child_node ]};
     trace := [] |}.

(** The same, with x among the child's own persistent flags. *)
Definition generations_own : state :=
  {| heap := {[ 1%positive := grandparent; 2%positive := parent_node;
                3%positive := persistent (flag_x 30 "of the child") child_node ]};
     trace := [] |}.

(** The same, with x among the child's local flags. *)
Definition generations_local : state :=
  {| heap := {[ 1%positive := grandparent; 2%positive := parent_node;
                3%positive := local (flag_x 30 "of the child") child_node ]};
     trace := [] |}.

(** [c.PersistentFlags().AddFlag(f)], what the typed registration
    functions of the flag set come down to. *)
Definition AddPersistentFlag (c : CommandPtr) (f : pflag.Flag) : M unit :=
  fs ← PersistentFlags c;
  modify c (set_pflags (Some (pflag.AddFlag f fs))).

(** The three nodes as their literals make them, before they are wired. *)
Definition fresh_generations : state :=
  {| heap := {[ 1%positive := new_Command "app" None;
                2%positive := new_Command "remote" None;
                3%positive := new_Command "add [url]" (Some 0) ]};
     trace := [] |}.

(** A heap in which every child pointer leads to a node: what
    [AddCommand] keeps, since it reads through a pointer before it
    appends it. *)
Definition closed (h : gmap addr Command) : Prop :=
  ∀ (a : addr) k, h !! a = Some k → Forall (allocated h) (commands k).

(** [descends h c names t]: following child pointers from [c], one child
    per name, leads to [t]. *)
Inductive descends (h : gmap addr Command) : addr → list string → addr → Prop :=
| descends_here c : descends h c [] c
| descends_child c k ch kch names t :
    h !! c = Some k → Some ch ∈ commands k → h !! ch = Some kch →
    descends h ch names t →
    descends h c (Name kch :: names) t.

(** The same children under a root that is runnable itself. *)
Definition runnable_twins : gmap addr Command :=
  {[ 1%positive := set_commands [Some 2; Some 3; Some 4]%positive
                     (new_Command "app" (Some 9));
     2%positive := set_parent (Some 1%positive) (new_Command "one" (Some 0));
     3%positive := set_parent (Some 1%positive) (new_Command "two x" (Some 1));
     4%positive := set_parent (Some 1%positive) (new_Command "two y" (Some 2)) ]}.

(** A computation that leaves the trace of events as it found it. *)
Definition quiet {A} (m : M A) : Prop := ∀ s, trace (m s).2 = trace s.

(** A runnable root that is its own commander, as [NewCommander] makes
    it. *)
Definition commander_root : state :=
  {| heap := {[ 1%positive := set_cmdr (Some 1%positive)
                               (new_Command "app [flags]" (Some 0)) ]};
     trace := [] |}.

(** Two parsers to run the dispatcher with: one takes every token as a
    positional argument, one rejects whatever it is given. *)
Definition parse_positional (fs : pflag.FlagSet) (a : list string)
    : pflag.FlagSet * option error :=
  ({| pflag.name := pflag.name fs; pflag.formal := pflag.formal fs;
      pflag.args := a |}, None).

Definition parse_reject (fs : pflag.FlagSet) (a : list string)
    : pflag.FlagSet * option error :=
  (fs, Some "unknown flag").

(** [persistentFlag]: the persistent flag of that name at the node
    itself or, failing that, at its nearest ancestor; one unit of fuel per
    node looked at. *)
Fixpoint persistentFlag (fuel : nat) (c : CommandPtr) (n : string)
    : M (option pflag.Flag) :=
  match fuel with
  | 0 => out_of_fuel
  | S fuel' =>
      b ← HasPersistentFlags c;
      flag ← (if b : bool then
                fs ← PersistentFlags c;
                mret (pflag.Lookup fs n)
              else mret None);
      match flag with
      | None =>
          k ← deref c;
          if HasParent k then persistentFlag fuel' (parent k) n else mret flag
      | Some _ => mret flag
      end
  end.

(** [Flag]: the local flag of that name, else the persistent one found
    by climbing. *)
Definition Flag (fuel : nat) (c : CommandPtr) (n : string)
    : M (option pflag.Flag) :=
  fs ← Flags c;
  match pflag.Lookup fs n with
  | None => persistentFlag fuel c n
  | Some f => mret (Some f)
  end.

(** The persistent flag set a node has or would be given on first
    access. *)
Definition the_pflags_at (h : gmap addr Command) (p : addr)
    : option pflag.FlagSet :=
  the_pflags <$> h !! p.

(** The first node of the list whose persistent flag set defines the
    name, and its definition. *)
Fixpoint chain_persistent (h : gmap addr Command) (l : list addr) (n : string)
    : option pflag.Flag :=
  match l with
  | [] => None
  | b :: l' =>
      match persistent_flag h b n with
      | Some f => Some f
      | None => chain_persistent h l' n
      end
  end.

(** The same by the order of the visit: what the merge copies. *)
Fixpoint chain_first (h : gmap addr Command) (l : list addr) (n : string)
    : option pflag.Flag :=
  match l with
  | [] => None
  | b :: l' =>
      match the_pflags_at h b ≫= (λ fs, first_named n (pflag.VisitAll fs)) with
      | Some f => Some f
      | None => chain_first h l' n
      end
  end.

(** Every persistent flag set along the list holds each flag under its
    own name. *)
Definition chain_wf (h : gmap addr Command) (l : list addr) : Prop :=
  ∀ b kb, b ∈ l → h !! b = Some kb → pflag.wf (the_pflags kb).

(** What the merge for target [c] may change between two states: nodes
    only grow, no persistent flag set changes its content, and no local
    flag set but the target's changes at all. *)
Definition framed (c : addr) (s s' : state) : Prop :=
  ∀ p : addr,
    (heap s !! p = None → heap s' !! p = None)
    ∧ ∀ k, heap s !! p = Some k →
        ∃ k', heap s' !! p = Some k' ∧ grows k k'
              ∧ the_pflags k' = the_pflags k
              ∧ (p ≠ c → flags k' = flags k).

(** [UseLine]: the path of the parent, if there is one, a space, and the
    use line of the node. *)
Definition UseLine (fuel : nat) (h : gmap addr Command) (c : CommandPtr)
    : outcome string :=
  k ← load h c;
  str ← (if HasParent k then
           path ← CommandPath fuel h (parent k);
           Ok (path +:+ " ")
         else Ok "");
  Ok (str +:+ Use k).

(** [ResetCommands]: [c.commands = nil]. *)
Definition ResetCommands (c : CommandPtr) : M unit :=
  modify c (set_commands []).

(** [Commands] and [Parent]: the fields. *)
Definition Commands (c : CommandPtr) : M (list CommandPtr) :=
  k ← deref c; mret (commands k).

Definition Parent (c : CommandPtr) : M CommandPtr :=
  k ← deref c; mret (parent k).

(** [ResetFlags]: a new buffer and two new, empty flag sets. *)
Definition ResetFlags (c : CommandPtr) : M unit :=
  modify c (set_flagErrorBuf (Some ""));;
  k ← deref c;
  modify c (set_flags (Some (pflag.NewFlagSet (Name k))));;
  k' ← deref c;
  modify c (set_pflags (Some (pflag.NewFlagSet (Name k')))).

(** The node after [ResetFlags()]. *)
Definition reset_flags (k : Command) : Command :=
  set_pflags (Some (pflag.NewFlagSet (Name k)))
    (set_flags (Some (pflag.NewFlagSet (Name k)))
       (set_flagErrorBuf (Some "") k)).

(** ** The template helpers [Gt] and [Eq] *)

(** What [reflect.ValueOf] shows of a Go value, as far as [Gt] and [Eq]
    look at it: its kind, grouped as their [switch] groups the kinds, with
    the length of a sequence, the value of a signed integer or the
    string. *)
Inductive Value : Type :=
| OfSeq (len : Z)       (* Array, Chan, Map, Slice *)
| OfInt (i : Z)         (* Int, Int8, Int16, Int32, Int64 *)
| OfString (s : string) (* String *)
| OfOther.              (* every other kind *)

Definition eq_unsupported : string := "Eq called on unsupported type".
Definition reflect_Int_panic : string :=
  "reflect: call of reflect.Value.Int on a Value that is no signed integer".

Section Templates.

(** [strconv.ParseInt(s, 10, 64)], of which [Gt] keeps the number and
    drops the error, and [Value.String] on a value that is no string,
    which prints the type between angle brackets: both taken as given. *)
Variable ParseInt : string → Z.
Variable describe : Value → string.

(** The number [Gt] compares for an operand; a kind it has no case for
    leaves the zero the variable starts with. *)
Definition Gt_operand (v : Value) : Z :=
  match v with
  | OfSeq len => len
  | OfInt i => i
  | OfString s => ParseInt s
  | OfOther => 0
  end.

Definition Gt (a b : Value) : bool :=
  let left := Gt_operand a in
  let right := Gt_operand b in
  bool_decide (left > right)%Z.

(** [bv.String()]. *)
Definition Value_String (v : Value) : string :=
  match v with
  | OfString s => s
  | _ => describe v
  end.

(** [bv.Int()], which panics on a value of another kind. *)
Definition Value_Int (v : Value) : outcome Z :=
  match v with
  | OfInt i => Ok i
  | _ => Panic reflect_Int_panic
  end.

Definition Eq (a b : Value) : outcome bool :=
  match a with
  | OfSeq _ => Panic eq_unsupported
  | OfInt i => j ← Value_Int b; Ok (bool_decide (i = j))
  | OfString s => Ok (bool_decide (s = Value_String b))
  | OfOther => Ok false
  end.

End Templates.

(** ** [commentifyString] of the scaffolding helpers *)

Definition newline_char : ascii := ascii_of_nat 10.

(** [strings.Split(s, sep)] for a separator of one character: the pieces
    between the separators, one piece more than there are separators. *)
Fixpoint Split (sep : ascii) (s : string) : list string :=
  match s with
  | EmptyString => [EmptyString]
  | String a s' =>
      if Ascii.eqb a sep then EmptyString :: Split sep s'
      else
        match Split sep s' with
        | line :: lines => String a line :: lines
        | [] => [String a EmptyString]
        end
  end.

(** [strings.HasPrefix] and [strings.Join]. *)
Definition HasPrefix (s prefix : string) : bool := String.prefix prefix s.
Definition Join (elems : list string) (sep : string) : string :=
  String.concat sep elems.

(** The body of the loop over the lines. *)
Definition commentify_line (line : string) : string :=
  if HasPrefix line "//" then line
  else if decide (line = "") then "//"
  else "// " +:+ line.

Definition commentifyString (s : string) : string :=
  let lines := Split newline_char s in
  let newlines := map commentify_line lines in
  Join newlines newline.

(** Whether a character occurs in a string. *)
Fixpoint occurs (a : ascii) (s : string) : bool :=
  match s with
  | EmptyString => false
  | String b s' => Ascii.eqb b a || occurs a s'
  end.

(** * The resolver *)

Section Resolver.

Variable h : gmap addr Command.

Lemma load_Some a k : h !! a = Some k → load h (Some a) = Ok k.
Proof. intros E. unfold load. by rewrite E. Qed.

Lemma scan_no_match descend arg0 cmds :
  Forall (other_name h arg0) cmds → scan h descend arg0 cmds = None.
Proof.
  induction 1 as [|p cmds [kp [Hl Hn]] _ IH]; simpl; [done|].
  rewrite Hl. by destruct (decide (Name kp = arg0)).
Qed.

Lemma scan_first_match descend arg0 pre ch kch post :
  Forall (other_name h arg0) pre →
  load h ch = Ok kch → Name kch = arg0 →
  scan h descend arg0 (pre ++ ch :: post) = Some (descend ch).
Proof.
  intros Hpre Hch Hname.
  induction Hpre as [|p pre [kp [Hl Hn]] _ IH]; simpl.
  - rewrite Hch. by destruct (decide (Name kch = arg0)).
  - rewrite Hl. by destruct (decide (Name kp = arg0)).
Qed.

Lemma Find_unfold c k args :
  h !! c = Some k →
  Find h (Some c) args =
    match args with
    | arg0 :: ((_ :: _) as rest) =>
        if HasSubCommands k then
          match scan h (λ cmd, Find h cmd rest) arg0 (commands k) with
          | Some r => r
          | None => Find_tail (Some c) k args
          end
        else Find_tail (Some c) k args
    | _ => Find_tail (Some c) k args
    end.
Proof.
  intros E. destruct args as [|arg0 [|arg1 rest]]; simpl; by rewrite E.
Qed.

Lemma Find_tail_eq c k args :
  Find_tail c k args =
    if Runnable k then Ok (c, args, None) else Ok (None, [], None).
Proof. done. Qed.

(** C2: with more than one argument and children, [Find] takes the first
    child, in insertion order, whose name equals [args[0]] and continues
    there with [args[1:]]; later siblings of the same name are never
    looked at. *)
Theorem Find_first_match c k arg0 arg1 rest pre ch kch post :
  h !! c = Some k →
  commands k = pre ++ Some ch :: post →
  Forall (other_name h arg0) pre →
  h !! ch = Some kch →
  Name kch = arg0 →
  Find h (Some c) (arg0 :: arg1 :: rest) = Find h (Some ch) (arg1 :: rest).
Proof.
  intros Hc Hcmds Hpre Hch Hname.
  rewrite (Find_unfold c k) by done.
  assert (HasSubCommands k = true) as ->.
  { unfold HasSubCommands. apply bool_decide_eq_true.
    rewrite Hcmds, length_app. simpl. lia. }
  rewrite Hcmds.
  by rewrite (scan_first_match _ arg0 pre (Some ch) kch post)
    by auto using load_Some.
Qed.

(** C3: when no child is matched (at most one argument, no children, or
    no child named [args[0]]), a runnable node resolves to itself with
    the arguments unchanged, and a node that is not runnable yields
    [(nil, nil, nil)]. *)
Theorem Find_no_match c k args :
  h !! c = Some k →
  length args ≤ 1 ∨ commands k = [] ∨
    (∃ arg0, head args = Some arg0 ∧ Forall (other_name h arg0) (commands k)) →
  Find h (Some c) args =
    if Runnable k then Ok (Some c, args, None) else Ok (None, [], None).
Proof.
  intros Hc Hcase.
  rewrite (Find_unfold c k) by done.
  rewrite <- Find_tail_eq.
  destruct args as [|arg0 [|arg1 rest]]; [done..|].
  destruct Hcase as [Hlen|[Hnil|(a0 & Hhd & Hall)]].
  - simpl in Hlen. lia.
  - unfold HasSubCommands. by rewrite Hnil.
  - simplify_eq/=. destruct (HasSubCommands k); [|done].
    by rewrite scan_no_match.
Qed.

End Resolver.

Lemma Find_first_match_witness :
  Find twins (Some 1%positive) ["two"; "a"; "b"]
    = Find twins (Some 3%positive) ["a"; "b"]
  ∧ Find twins (Some 1%positive) ["two"; "a"; "b"]
    = Ok (Some 3%positive, ["a"; "b"], None).
Proof.
  split; [|by vm_compute].
  apply (Find_first_match twins 1%positive
           (set_commands [Some 2; Some 3; Some 4]%positive (new_Command "app" None))
           "two" "a" ["b"] [Some 2%positive] 3%positive
           (set_parent (Some 1%positive) (new_Command "two x" (Some 1)))
           [Some 4%positive]).
  - by vm_compute.
  - reflexivity.
  - constructor; [|constructor].
    exists (set_parent (Some 1%positive) (new_Command "one" (Some 0))).
    split; [by vm_compute | by vm_compute].
  - by vm_compute.
  - by vm_compute.
Defined.

(** The scenario of the spec: the empty argument list against a runnable
    root. *)
Lemma Find_no_match_witness :
  Find runnable_root (Some 1%positive) [] = Ok (Some 1%positive, [], None).
Proof.
  apply (Find_no_match runnable_root 1%positive
           (new_Command "app [flags]" (Some 0)) []).
  - by vm_compute.
  - left. simpl. lia.
Defined.

(** * The dispatcher *)

Section Dispatcher.

Variable Parse : pflag.FlagSet → list string → pflag.FlagSet * option error.

(** The first thing [rmerge] does with its node is to read a field of
    it, whatever the target is. *)
Lemma rmerge_nil fuel c s :
  rmerge (S fuel) c None s = (Panic nil_dereference, s).
Proof. reflexivity. Qed.

Lemma ParseFlags_nil fuel args s :
  ParseFlags Parse (S fuel) None args s = (Panic nil_dereference, s).
Proof. reflexivity. Qed.

(** Whenever the resolver finds no target and reports no error, the
    dispatcher goes on to parse flags on the nil target and faults; the
    error it built on entry is never returned. *)
Lemma execute_nil_target fuel c args a s :
  args ≠ [] →
  Find (heap s) (Some c) args = Ok (None, a, None) →
  execute Parse (S fuel) (Some c) args s = (Panic nil_dereference, s).
Proof.
  intros Hargs HFind. destruct args as [|arg0 args]; [done|].
  unfold execute, Find_m, mbind, M_bind. by rewrite HFind.
Qed.

(** C10: [execute] indexes [args[0]] before anything else, so on the
    empty argument list it panics with an index out of range, also on a
    runnable root that [Find] alone resolves to itself; [Execute] of the
    commander gets there when neither [SetArgs] nor the process supplies
    an argument. *)
Theorem execute_empty_args_panics fuel s root k prog :
  heap s !! root = Some k →
  Runnable k = true →
  Find (heap s) (Some root) [] = Ok (Some root, [], None)
  ∧ execute Parse fuel (Some root) [] s = (Panic index_out_of_range, s)
  ∧ Commander_Execute Parse fuel [prog] {| embedded := root; cargs := [] |} s
      = (Panic index_out_of_range, s).
Proof.
  intros Hroot Hrun. split; [|done].
  rewrite (Find_unfold _ root k [] Hroot), Find_tail_eq.
  by rewrite Hrun.
Qed.

(** C1: on a root that is not runnable and has no child, [Find] returns
    [(nil, nil, nil)] for [["bogus"]], and [execute] then panics with a
    nil dereference inside [ParseFlags]; no "unknown subcommand" error
    is returned.  No run action and no usage function has been called
    when it panics. *)
Theorem execute_bogus_panics fuel :
  let s := {| heap := container_root; trace := [] |} in
  Find (heap s) (Some 1%positive) ["bogus"] = Ok (None, [], None)
  ∧ execute Parse (S fuel) (Some 1%positive) ["bogus"] s
      = (Panic nil_dereference, s).
Proof.
  intros s. split; [by vm_compute|].
  apply (execute_nil_target fuel 1%positive ["bogus"] []); [done|].
  by vm_compute.
Qed.

End Dispatcher.

Lemma execute_empty_args_panics_witness :
  let Parse := λ fs (_ : list string), (fs, @None error) in
  let s := {| heap := runnable_root; trace := [] |} in
  Find (heap s) (Some 1%positive) [] = Ok (Some 1%positive, [], None)
  ∧ execute Parse 8 (Some 1%positive) [] s = (Panic index_out_of_range, s)
  ∧ Commander_Execute Parse 8 ["app"]
      {| embedded := 1%positive; cargs := [] |} s
      = (Panic index_out_of_range, s).
Proof.
  intros Parse s.
  apply (execute_empty_args_panics Parse 8 s 1%positive
           (new_Command "app [flags]" (Some 0)) "app").
  - by vm_compute.
  - by vm_compute.
Defined.

(** * Tree construction *)

Lemma deref_Some a k s : heap s !! a = Some k → deref (Some a) s = (Ok k, s).
Proof. intros E. unfold deref, load. by rewrite E. Qed.

Lemma modify_Some a k f s :
  heap s !! a = Some k → modify (Some a) f s = (Ok tt, upd a (f k) s).
Proof. intros E. unfold modify, load. by rewrite E. Qed.

Lemma bind_Ok {A B} (m : M A) (f : A → M B) s a s' :
  m s = (Ok a, s') → (m ≫= f) s = f a s'.
Proof. intros E. unfold mbind, M_bind. by rewrite E. Qed.

Lemma set_commands_id k : set_commands (commands k ++ []) k = k.
Proof. destruct k. unfold set_commands. simpl. by rewrite app_nil_r. Qed.

Lemma set_commands_twice l1 l2 k :
  set_commands (commands (set_commands (commands k ++ l1) k) ++ l2)
    (set_commands (commands k ++ l1) k)
  = set_commands (commands k ++ l1 ++ l2) k.
Proof. unfold set_commands. simpl. by rewrite app_assoc. Qed.

Lemma allocated_upd a k s x :
  allocated (heap s) x → allocated (heap (upd a k s)) x.
Proof.
  intros (b & -> & Hb). exists b. split; [done|]. simpl.
  rewrite lookup_insert. case_decide; [by eexists | done].
Qed.

(** One round of the loop of [AddCommand] on a node other than the
    receiver. *)
Lemma AddCommand_cons c kc x kx rest s :
  x ≠ c →
  heap s !! c = Some kc →
  heap s !! x = Some kx →
  AddCommand (Some c) (Some x :: rest) s =
    AddCommand (Some c) rest
      (upd c (set_commands (commands kc ++ [Some x]) kc)
         (upd x (set_cmdr (cmdr kc) (set_parent (Some c) kx)) s)).
Proof.
  intros Hne Hc Hx. simpl.
  case_decide; [congruence|].
  rewrite (bind_Ok _ _ _ _ _ (modify_Some x kx _ s Hx)).
  set (s1 := upd x (set_parent (Some c) kx) s).
  assert (heap s1 !! x = Some (set_parent (Some c) kx)) as Hx1
    by apply lookup_insert_eq.
  assert (heap s1 !! c = Some kc) as Hc1
    by (simpl; by rewrite lookup_insert_ne).
  rewrite (bind_Ok _ _ _ _ _ (deref_Some x _ s1 Hx1)). simpl parent.
  rewrite (bind_Ok _ _ _ _ _ (deref_Some c _ s1 Hc1)).
  rewrite (bind_Ok _ _ _ _ _ (modify_Some x _ _ s1 Hx1)).
  set (s2 := upd x _ s1).
  assert (heap s2 !! c = Some kc) as Hc2
    by (simpl; by rewrite !lookup_insert_ne).
  rewrite (bind_Ok _ _ _ _ _ (modify_Some c _ _ s2 Hc2)).
  f_equal. unfold s2, s1, upd. simpl. by rewrite insert_insert_eq.
Qed.

(** C7: a call of [AddCommand] on [c] whose arguments, all nodes, contain
    [c] itself panics with the message of the package at the first
    occurrence of [c]; at that point the children of [c] have grown by the
    arguments before that occurrence only, none of which is [c], and the
    parent of [c] is what it was. *)
Theorem AddCommand_self_panics c cmds s k :
  heap s !! c = Some k →
  Forall (allocated (heap s)) cmds →
  Some c ∈ cmds →
  ∃ pre post s',
    cmds = pre ++ (Some c :: post) ∧ (Some c ∉ pre)
    ∧ AddCommand (Some c) cmds s = (Panic self_child, s')
    ∧ heap s' !! c = Some (set_commands (commands k ++ pre) k)
    ∧ parent (set_commands (commands k ++ pre) k) = parent k.
Proof.
  intros Hc Hall Hin. revert s k Hc Hall.
  induction cmds as [|x rest IH]; intros s k Hc Hall; [by inversion Hin|].
  destruct (decide (x = Some c)) as [->|Hne].
  - exists [], rest, s. simpl.
    case_decide; [|done].
    rewrite set_commands_id. split_and!; [done| |done..]. by intros ?%elem_of_nil.
  - apply elem_of_cons in Hin as [?|Hin]; [done|].
    apply Forall_cons in Hall as [(a & -> & [ka Ha]) Hall].
    assert (a ≠ c) as Hac by congruence.
    pose proof (AddCommand_cons c k a ka rest s Hac Hc Ha) as Hstep.
    set (s3 := upd c _ _) in Hstep.
    destruct (IH Hin s3 (set_commands (commands k ++ [Some a]) k))
      as (pre & post & s' & -> & Hpre & Hrun & Hheap & _).
    { apply lookup_insert_eq. }
    { eapply Forall_impl; [exact Hall|]. intros y Hy.
      by do 2 apply allocated_upd. }
    exists (Some a :: pre), post, s'.
    split_and!; [done| | exact (eq_trans Hstep Hrun) | | done].
    + intros [?|?]%elem_of_cons; congruence.
    + by rewrite Hheap, set_commands_twice.
Qed.

(** C8, as the code has it: [AddCommand] on a node [c] with arguments that
    are nodes other than [c] returns; every argument then has [c] as parent
    and the commander of [c] as commander, [c] has the arguments appended
    to its children, and every other node of the heap, the descendants of
    the arguments among them, is what it was before the call. *)
Theorem AddCommand_sets_direct_children c cmds s kc :
  heap s !! c = Some kc →
  Forall (allocated (heap s)) cmds →
  Some c ∉ cmds →
  ∃ s',
    AddCommand (Some c) cmds s = (Ok tt, s')
    ∧ heap s' !! c = Some (set_commands (commands kc ++ cmds) kc)
    ∧ (∀ x, Some x ∈ cmds →
         ∃ kx, heap s' !! x = Some kx
               ∧ parent kx = Some c ∧ cmdr kx = cmdr kc)
    ∧ (∀ y, Some y ∉ cmds → y ≠ c → heap s' !! y = heap s !! y).
Proof.
  intros Hc Hall Hnin. revert s kc Hc Hall.
  induction cmds as [|x rest IH]; intros s kc Hc Hall.
  - exists s. simpl. rewrite set_commands_id.
    split_and!; [done..| |done]. by intros x ?%elem_of_nil.
  - apply not_elem_of_cons in Hnin as [Hxc Hnin].
    apply Forall_cons in Hall as [(a & -> & [ka Ha]) Hall].
    assert (a ≠ c) as Hac by congruence.
    pose proof (AddCommand_cons c kc a ka rest s Hac Hc Ha) as Hstep.
    set (ka' := set_cmdr (cmdr kc) (set_parent (Some c) ka)) in *.
    set (kc' := set_commands (commands kc ++ [Some a]) kc) in *.
    set (s3 := upd c kc' (upd a ka' s)) in *.
    destruct (IH Hnin s3 kc') as (s' & Hrun & Hheap & Hargs & Hframe).
    { apply lookup_insert_eq. }
    { eapply Forall_impl; [exact Hall|]. intros y Hy.
      by do 2 apply allocated_upd. }
    exists s'. split; [exact (eq_trans Hstep Hrun)|]. split; [|split].
    + rewrite Hheap. unfold kc'. by rewrite set_commands_twice.
    + intros x [Hx|Hx]%elem_of_cons; [|by apply Hargs].
      simplify_eq. destruct (decide (Some a ∈ rest)) as [Hin|Hnot].
      * by apply Hargs.
      * exists ka'. rewrite (Hframe a Hnot Hac). split; [|done].
        unfold s3. simpl. rewrite lookup_insert_ne by done.
        apply lookup_insert_eq.
    + intros y Hy Hyc. apply not_elem_of_cons in Hy as [Hya Hy].
      rewrite (Hframe y Hy Hyc). unfold s3. simpl.
      rewrite !lookup_insert_ne; [done|congruence|congruence].
Qed.

Ltac solve_allocated :=
  eexists; split; [reflexivity | eexists; vm_compute; reflexivity].

Lemma AddCommand_self_panics_witness :
  ∃ pre post s',
    [Some 2; Some 1; Some 3]%positive = pre ++ (Some 1%positive :: post)
    ∧ (Some 1%positive ∉ pre)
    ∧ AddCommand (Some 1%positive) [Some 2; Some 1; Some 3]%positive three_nodes
        = (Panic self_child, s')
    ∧ heap s' !! 1%positive
        = Some (set_commands
                  (commands (set_cmdr (Some 1%positive) (new_Command "app" None)) ++ pre)
                  (set_cmdr (Some 1%positive) (new_Command "app" None)))
    ∧ parent (set_commands
                (commands (set_cmdr (Some 1%positive) (new_Command "app" None)) ++ pre)
                (set_cmdr (Some 1%positive) (new_Command "app" None)))
        = parent (set_cmdr (Some 1%positive) (new_Command "app" None)).
Proof.
  apply (AddCommand_self_panics 1%positive [Some 2; Some 1; Some 3]%positive
           three_nodes (set_cmdr (Some 1%positive) (new_Command "app" None))).
  - by vm_compute.
  - repeat (apply Forall_cons_2; [solve_allocated|]). apply Forall_nil_2.
  - apply list_elem_of_further, list_elem_of_here.
Defined.

Lemma AddCommand_sets_direct_children_witness :
  ∃ s',
    AddCommand (Some 1%positive) [Some 2; Some 3]%positive three_nodes = (Ok tt, s')
    ∧ heap s' !! 1%positive
        = Some (set_commands
                  (commands (set_cmdr (Some 1%positive) (new_Command "app" None))
                     ++ [Some 2; Some 3]%positive)
                  (set_cmdr (Some 1%positive) (new_Command "app" None)))
    ∧ (∀ x, Some x ∈ [Some 2; Some 3]%positive →
         ∃ kx, heap s' !! x = Some kx
               ∧ parent kx = Some 1%positive
               ∧ cmdr kx = cmdr (set_cmdr (Some 1%positive) (new_Command "app" None)))
    ∧ (∀ y, Some y ∉ [Some 2; Some 3]%positive → y ≠ 1%positive →
         heap s' !! y = heap three_nodes !! y).
Proof.
  apply (AddCommand_sets_direct_children 1%positive [Some 2; Some 3]%positive
           three_nodes (set_cmdr (Some 1%positive) (new_Command "app" None))).
  - by vm_compute.
  - repeat (apply Forall_cons_2; [solve_allocated|]). apply Forall_nil_2.
  - intros Hin. repeat (apply elem_of_cons in Hin as [Hin|Hin]; [done|]).
    by apply elem_of_nil in Hin.
Defined.

(** C8 as stated fails: [AddCommand] hands the commander to the nodes of
    its argument list and to no other node.  Node 3 is attached under
    node 2 first, then node 2 under the commander's root 1: node 2 gets the
    commander, node 3, its child, still has none. *)
Lemma AddCommand_owner_not_transitive :
  ∃ s1 s2,
    AddCommand (Some 2%positive) [Some 3%positive] three_nodes = (Ok tt, s1)
    ∧ AddCommand (Some 1%positive) [Some 2%positive] s1 = (Ok tt, s2)
    ∧ (cmdr <$> heap s2 !! 1%positive) = Some (Some 1%positive)
    ∧ (cmdr <$> heap s2 !! 2%positive) = Some (Some 1%positive)
    ∧ (commands <$> heap s2 !! 2%positive) = Some [Some 3%positive]
    ∧ (parent <$> heap s2 !! 3%positive) = Some (Some 2%positive)
    ∧ (cmdr <$> heap s2 !! 3%positive) = Some None
    ∧ (cmdr <$> heap s2 !! 3%positive) ≠ (cmdr <$> heap s2 !! 1%positive).
Proof.
  eexists _, _. split; [by vm_compute|]. split; [by vm_compute|].
  split_and!; by vm_compute.
Qed.

(** * Command paths *)

Lemma concat_snoc_pair (xs : list string) (a b : string) :
  String.concat " " (xs ++ [a +:+ " " +:+ b]) = String.concat " " (xs ++ [a; b]).
Proof.
  induction xs as [|x xs IH]; [done|].
  destruct xs as [|y xs].
  - simpl. done.
  - change (String.concat " " (x :: (y :: xs) ++ [a +:+ " " +:+ b]) =
            String.concat " " (x :: (y :: xs) ++ [a; b])).
    simpl in IH. simpl. by rewrite IH.
Qed.

Lemma prepend_concat names str :
  prepend names str = String.concat " " (rev names ++ [str]).
Proof.
  revert str. induction names as [|n names IH]; intros str; [done|].
  unfold prepend in *. simpl. rewrite IH, concat_snoc_pair.
  by rewrite <- app_assoc.
Qed.

(** One evaluation of the loop condition of [CommandPath]. *)
Lemma CommandPath_loop_step fuel (h : gmap addr Command) (x : addr) kx str :
  h !! x = Some kx →
  CommandPath_loop (S fuel) h (Some x) str =
    match parent kx with
    | None => Ok str
    | Some p =>
        match h !! p with
        | Some kp => CommandPath_loop fuel h (Some p) (Name kp +:+ " " +:+ str)
        | None => Panic nil_dereference
        end
    end.
Proof.
  intros E. cbn [CommandPath_loop]. rewrite (load_Some h x kx E).
  unfold mbind at 1, outcome_bind at 1. unfold HasParent.
  destruct (parent kx) as [p|]; [|done].
  rewrite bool_decide_eq_true_2 by done.
  unfold load. by destruct (h !! p).
Qed.

Lemma ancestry_inv (h : gmap addr Command) (x : addr) l :
  ancestry h x l → ∃ k l', h !! x = Some k ∧ l = x :: l'.
Proof. inversion 1; eauto. Qed.

Lemma CommandPath_loop_ancestry (h : gmap addr Command) (x : addr) l fuel str :
  ancestry h x l → length l ≤ fuel →
  CommandPath_loop fuel h (Some x) str
    = Ok (prepend (map (name_of h) (tail l)) str).
Proof.
  intros Hanc. revert fuel str.
  induction Hanc as [a k Ha Hp | a k p l Ha Hp Hanc IH]; intros fuel str Hfuel.
  - destruct fuel as [|fuel]; [simpl in Hfuel; lia|].
    by rewrite (CommandPath_loop_step fuel h a k), Hp.
  - destruct fuel as [|fuel]; [simpl in Hfuel; lia|].
    destruct (ancestry_inv h p l Hanc) as (kp & l' & Hkp & ->).
    rewrite (CommandPath_loop_step fuel h a k), Hp by done.
    cbn beta iota. rewrite Hkp.
    rewrite IH by (simpl in *; lia).
    simpl. unfold name_of at 3. by rewrite Hkp.
Qed.

(** C9, as the code has it: for a node whose chain of [parent] pointers
    is finite, [CommandPath] returns, with fuel for the length of the
    chain or more, the names from the top of the chain down to the node,
    joined by single spaces. *)
Theorem CommandPath_ancestry (h : gmap addr Command) (c : addr) l fuel :
  ancestry h c l →
  length l ≤ fuel →
  CommandPath fuel h (Some c)
    = Ok (String.concat " " (map (name_of h) (rev l))).
Proof.
  intros Hanc Hfuel. unfold CommandPath.
  destruct (ancestry_inv h c l Hanc) as (k & l' & Hc & ->).
  rewrite (load_Some h c k Hc). unfold mbind, outcome_bind.
  rewrite (CommandPath_loop_ancestry h c (c :: l') fuel) by done.
  rewrite prepend_concat. simpl. rewrite map_app, map_rev. simpl.
  do 3 f_equal. unfold name_of. by rewrite Hc.
Qed.

Lemma CommandPath_ancestry_witness :
  CommandPath 2 twins (Some 3%positive)
    = Ok (String.concat " " (map (name_of twins) (rev [3; 1]%positive)))
  ∧ CommandPath 2 twins (Some 3%positive) = Ok "app two".
Proof.
  split; [|by vm_compute].
  apply (CommandPath_ancestry twins 3%positive [3; 1]%positive 2).
  - eapply ancestry_step; [by vm_compute | reflexivity |].
    eapply ancestry_root; [by vm_compute | reflexivity].
  - simpl. lia.
Defined.

Lemma mutual_parents_loop fuel :
  ∀ str,
    CommandPath_loop fuel (heap mutual_parents) (Some 1%positive) str = OutOfFuel
    ∧ CommandPath_loop fuel (heap mutual_parents) (Some 2%positive) str = OutOfFuel.
Proof.
  induction fuel as [|fuel IH]; intros str; [done|].
  split.
  - erewrite CommandPath_loop_step by (by vm_compute).
    cbn [parent set_parent set_cmdr set_commands new_Command].
    replace (heap mutual_parents !! 2%positive)
      with (Some (set_commands [Some 1%positive]
                    (set_cmdr None
                       (set_parent (Some 1%positive) (new_Command "pong" (Some 1))))))
      by (by vm_compute).
    apply IH.
  - erewrite CommandPath_loop_step by (by vm_compute).
    cbn [parent set_parent set_cmdr set_commands new_Command].
    replace (heap mutual_parents !! 1%positive)
      with (Some (set_cmdr None
                    (set_parent (Some 2%positive)
                       (set_commands [Some 2%positive] (new_Command "ping" (Some 0))))))
      by (by vm_compute).
    apply IH.
Qed.

(** C9 as stated fails: refusing a node as its own child does not keep
    the parent pointers acyclic.  [ping.AddCommand(pong)] and then
    [pong.AddCommand(ping)] both return, and [CommandPath] of [ping] then
    never leaves its loop: it returns with no amount of fuel. *)
Lemma CommandPath_mutual_parents_diverges :
  (∃ s1,
     AddCommand (Some 1%positive) [Some 2%positive] two_nodes = (Ok tt, s1)
     ∧ AddCommand (Some 2%positive) [Some 1%positive] s1 = (Ok tt, mutual_parents))
  ∧ ¬ ∃ fuel str,
        CommandPath fuel (heap mutual_parents) (Some 1%positive) = Ok str.
Proof.
  split.
  - eexists. split; by vm_compute.
  - intros (fuel & str & Hrun). unfold CommandPath in Hrun.
    replace (load (heap mutual_parents) (Some 1%positive))
      with (Ok (set_cmdr None
                  (set_parent (Some 2%positive)
                     (set_commands [Some 2%positive] (new_Command "ping" (Some 0))))))
      in Hrun by (by vm_compute).
    unfold mbind, outcome_bind in Hrun.
    by rewrite (proj1 (mutual_parents_loop fuel _)) in Hrun.
Qed.

(** * The flag merger *)

(** ** What the accessors and the visit do to one node *)

Lemma grows_refl k : grows k k.
Proof. by split. Qed.

Lemma grows_trans k1 k2 k3 : grows k1 k2 → grows k2 k3 → grows k1 k3.
Proof.
  intros [] []. split; try congruence; eauto.
Qed.

Lemma extends_refl s : extends s s.
Proof. intros a k ?. exists k. auto using grows_refl. Qed.

Lemma extends_trans s1 s2 s3 : extends s1 s2 → extends s2 s3 → extends s1 s3.
Proof.
  intros H12 H23 a k Ha.
  destruct (H12 a k Ha) as (k2 & Ha2 & Hg2).
  destruct (H23 a k2 Ha2) as (k3 & Ha3 & Hg3).
  eauto using grows_trans.
Qed.

Lemma extends_upd (a : addr) k k' s :
  heap s !! a = Some k → grows k k' → extends s (upd a k' s).
Proof.
  intros Ha Hg b kb Hb. simpl. destruct (decide (a = b)) as [->|Hne].
  - rewrite lookup_insert_eq. simplify_eq. eauto.
  - rewrite lookup_insert_ne by done. eauto using grows_refl.
Qed.

Lemma upd_id (a : addr) k s : heap s !! a = Some k → upd a k s = s.
Proof. intros Ha. destruct s. unfold upd. simpl in *. by rewrite insert_id. Qed.

Lemma upd_upd (a : addr) k k' s : upd a k' (upd a k s) = upd a k' s.
Proof. unfold upd. simpl. by rewrite insert_insert_eq. Qed.

Lemma grows_ensure_buf k : grows k (ensure_buf k).
Proof. unfold ensure_buf. case_decide; by split. Qed.

Lemma grows_with_flags k : grows k (with_flags k).
Proof.
  unfold with_flags. destruct (flags k) eqn:E; [apply grows_refl|].
  eapply grows_trans; [|apply grows_ensure_buf].
  split; try done. unfold local_lookup. by rewrite E.
Qed.

Lemma grows_with_pflags k : grows k (with_pflags k).
Proof.
  unfold with_pflags. destruct (pflags k) eqn:E; [apply grows_refl|].
  eapply grows_trans; [|apply grows_ensure_buf].
  split; try done. intros fs. by rewrite E.
Qed.

Lemma flags_ensure_buf k : flags (ensure_buf k) = flags k.
Proof. unfold ensure_buf. by case_decide. Qed.

Lemma pflags_ensure_buf k : pflags (ensure_buf k) = pflags k.
Proof. unfold ensure_buf. by case_decide. Qed.

Lemma flags_with_flags k : flags (with_flags k) = Some (the_flags k).
Proof.
  unfold with_flags, the_flags. destruct (flags k) eqn:E; [done|].
  by rewrite flags_ensure_buf.
Qed.

Lemma pflags_with_pflags k : pflags (with_pflags k) = Some (the_pflags k).
Proof.
  unfold with_pflags, the_pflags. destruct (pflags k) eqn:E; [done|].
  by rewrite pflags_ensure_buf.
Qed.

Lemma pflags_with_flags k : pflags (with_flags k) = pflags k.
Proof.
  unfold with_flags. destruct (flags k); [done|]. by rewrite pflags_ensure_buf.
Qed.

Lemma flags_with_pflags k : flags (with_pflags k) = flags k.
Proof.
  unfold with_pflags. destruct (pflags k); [done|]. by rewrite flags_ensure_buf.
Qed.

Lemma with_flags_idem k : with_flags (with_flags k) = with_flags k.
Proof. unfold with_flags at 1. by rewrite flags_with_flags. Qed.

Lemma with_pflags_idem k : with_pflags (with_pflags k) = with_pflags k.
Proof. unfold with_pflags at 1. by rewrite pflags_with_pflags. Qed.

Lemma the_flags_with_flags k : the_flags (with_flags k) = the_flags k.
Proof. unfold the_flags at 1. by rewrite flags_with_flags. Qed.

Lemma the_pflags_with_pflags k : the_pflags (with_pflags k) = the_pflags k.
Proof. unfold the_pflags at 1. by rewrite pflags_with_pflags. Qed.

Lemma local_lookup_with_flags k n :
  local_lookup (with_flags k) n = local_lookup k n.
Proof.
  unfold local_lookup. rewrite flags_with_flags. unfold the_flags.
  destruct (flags k); [done|]. simpl. apply lookup_empty.
Qed.

Lemma local_lookup_the_flags k n :
  pflag.Lookup (the_flags k) n = local_lookup k n.
Proof.
  unfold local_lookup, the_flags. destruct (flags k); [done|]. apply lookup_empty.
Qed.

(** The callback defines the flag's name at the target exactly when the
    name was free, and touches no other name. *)
Lemma local_lookup_merge_one f k n :
  local_lookup (merge_one f k) n =
    match local_lookup k n with
    | Some g => Some g
    | None => if decide (pflag.Name f = n) then Some f else None
    end.
Proof.
  unfold merge_one. cbv zeta. rewrite the_flags_with_flags, local_lookup_the_flags.
  case_decide as Hfree.
  - unfold local_lookup at 1. simpl. unfold pflag.Lookup. simpl.
    rewrite lookup_insert. case_decide as Hn.
    + subst n. by rewrite Hfree.
    + fold (pflag.Lookup (the_flags k) n). rewrite local_lookup_the_flags.
      by destruct (local_lookup k n).
  - rewrite local_lookup_with_flags.
    destruct (local_lookup k n) eqn:E; [done|].
    case_decide; [|done]. by subst n.
Qed.

Lemma local_lookup_visit_cmd fls k n :
  local_lookup (visit_cmd fls k) n =
    match local_lookup k n with
    | Some g => Some g
    | None => first_named n fls
    end.
Proof.
  revert k. induction fls as [|f fls IH]; intros k; simpl.
  - by destruct (local_lookup k n).
  - unfold visit_cmd in *. simpl. rewrite IH, local_lookup_merge_one.
    destruct (local_lookup k n); [done|]. by case_decide.
Qed.

Lemma pflags_merge_one f k : pflags (merge_one f k) = pflags k.
Proof.
  unfold merge_one. cbv zeta. case_decide; simpl; apply pflags_with_flags.
Qed.

Lemma grows_merge_one f k : grows k (merge_one f k).
Proof.
  pose proof (grows_with_flags k) as [].
  split; try (unfold merge_one; cbv zeta; case_decide; simpl; done).
  intros n g Hg. by rewrite local_lookup_merge_one, Hg.
Qed.

Lemma grows_visit_cmd fls k : grows k (visit_cmd fls k).
Proof.
  revert k. induction fls as [|f fls IH]; intros k; [apply grows_refl|].
  unfold visit_cmd in *. simpl.
  eapply grows_trans; [apply grows_merge_one | apply IH].
Qed.

Lemma merge_one_noop f k :
  is_Some (local_lookup k (pflag.Name f)) → merge_one f k = k.
Proof.
  intros [g Hg]. unfold merge_one. cbv zeta.
  assert (with_flags k = k) as ->.
  { unfold with_flags. unfold local_lookup in Hg. by destruct (flags k). }
  rewrite local_lookup_the_flags, Hg. by case_decide.
Qed.

Lemma visit_cmd_noop fls k :
  (∀ f, f ∈ fls → is_Some (local_lookup k (pflag.Name f))) →
  visit_cmd fls k = k.
Proof.
  induction fls as [|f fls IH]; intros Hall; [done|].
  unfold visit_cmd in *. simpl. rewrite merge_one_noop.
  - apply IH. intros g Hg. apply Hall. by right.
  - apply Hall. by left.
Qed.

Lemma first_named_elem n fls f :
  first_named n fls = Some f → f ∈ fls ∧ pflag.Name f = n.
Proof.
  induction fls as [|g fls IH]; simpl; [done|].
  case_decide.
  - intros [= ->]. split; [by left|done].
  - intros Hf. destruct (IH Hf). split; [by right|done].
Qed.

Lemma first_named_is_Some fls f :
  f ∈ fls → is_Some (first_named (pflag.Name f) fls).
Proof.
  induction 1 as [f fls|f g fls _ IH]; simpl; case_decide; eauto; done.
Qed.

(** ** The accessors and the visit on a node of the heap *)

Lemma ensure_buf_spec (a : addr) k s :
  heap s !! a = Some k →
  (if decide (flagErrorBuf k = None)
   then modify (Some a) (set_flagErrorBuf (Some ""))
   else mret tt) s = (Ok tt, upd a (ensure_buf k) s).
Proof.
  intros Ha. unfold ensure_buf. case_decide.
  - by apply modify_Some.
  - by rewrite upd_id.
Qed.

Lemma Flags_spec (a : addr) k s :
  heap s !! a = Some k →
  Flags (Some a) s = (Ok (the_flags k), upd a (with_flags k) s).
Proof.
  intros Ha. unfold Flags, the_flags, with_flags.
  rewrite (bind_Ok _ _ _ _ _ (deref_Some a k s Ha)).
  destruct (flags k) as [fs|] eqn:E.
  - by rewrite upd_id.
  - rewrite (bind_Ok _ _ _ _ _ (modify_Some a k _ s Ha)).
    set (k1 := set_flags _ k). set (s1 := upd a k1 s).
    assert (heap s1 !! a = Some k1) as Ha1 by apply lookup_insert_eq.
    rewrite (bind_Ok _ _ _ _ _ (deref_Some a k1 s1 Ha1)).
    rewrite (bind_Ok _ _ _ _ _ (ensure_buf_spec a k1 s1 Ha1)).
    unfold s1. by rewrite upd_upd.
Qed.

Lemma PersistentFlags_spec (a : addr) k s :
  heap s !! a = Some k →
  PersistentFlags (Some a) s = (Ok (the_pflags k), upd a (with_pflags k) s).
Proof.
  intros Ha. unfold PersistentFlags, the_pflags, with_pflags.
  rewrite (bind_Ok _ _ _ _ _ (deref_Some a k s Ha)).
  destruct (pflags k) as [fs|] eqn:E.
  - by rewrite upd_id.
  - rewrite (bind_Ok _ _ _ _ _ (modify_Some a k _ s Ha)).
    set (k1 := set_pflags _ k). set (s1 := upd a k1 s).
    assert (heap s1 !! a = Some k1) as Ha1 by apply lookup_insert_eq.
    rewrite (bind_Ok _ _ _ _ _ (deref_Some a k1 s1 Ha1)).
    rewrite (bind_Ok _ _ _ _ _ (ensure_buf_spec a k1 s1 Ha1)).
    unfold s1. by rewrite upd_upd.
Qed.

Lemma HasPersistentFlags_spec (a : addr) k s :
  heap s !! a = Some k →
  HasPersistentFlags (Some a) s
    = (Ok (pflag.HasFlags (the_pflags k)), upd a (with_pflags k) s).
Proof.
  intros Ha. unfold HasPersistentFlags.
  by rewrite (bind_Ok _ _ _ _ _ (PersistentFlags_spec a k s Ha)).
Qed.

Lemma merge_flag_spec (a : addr) k f s :
  heap s !! a = Some k →
  merge_flag (Some a) f s = (Ok tt, upd a (merge_one f k) s).
Proof.
  intros Ha. unfold merge_flag, merge_one. cbv zeta.
  rewrite (bind_Ok _ _ _ _ _ (Flags_spec a k s Ha)).
  set (s1 := upd a (with_flags k) s).
  assert (heap s1 !! a = Some (with_flags k)) as Ha1 by apply lookup_insert_eq.
  rewrite the_flags_with_flags. case_decide; [|done].
  rewrite (bind_Ok _ _ _ _ _ (Flags_spec a _ s1 Ha1)).
  rewrite with_flags_idem, the_flags_with_flags.
  unfold s1. rewrite upd_upd.
  erewrite modify_Some by apply lookup_insert_eq.
  by rewrite upd_upd.
Qed.

Lemma visit_spec (a : addr) fls k s :
  heap s !! a = Some k →
  visit (Some a) fls s = (Ok tt, upd a (visit_cmd fls k) s).
Proof.
  revert k s. induction fls as [|f fls IH]; intros k s Ha.
  - simpl. by rewrite upd_id.
  - cbn [visit].
    rewrite (bind_Ok _ _ _ _ _ (merge_flag_spec a k f s Ha)).
    rewrite (IH (merge_one f k)) by apply lookup_insert_eq.
    by rewrite upd_upd.
Qed.

Lemma VisitAll_no_flags fs : pflag.HasFlags fs = false → pflag.VisitAll fs = [].
Proof.
  unfold pflag.HasFlags, pflag.VisitAll. intros H%bool_decide_eq_false.
  destruct (decide (pflag.formal fs = ∅)) as [->|]; [|done].
  by rewrite map_to_list_empty.
Qed.

(** One node of the climb: the state after it is [merge_node], and the
    climb goes on at the parent if there is one. *)
Lemma rmerge_step fuel (a b : addr) ka kb s :
  heap s !! a = Some ka →
  heap s !! b = Some kb →
  rmerge (S fuel) (Some a) (Some b) s =
    match parent kb with
    | Some p => rmerge fuel (Some a) (Some p) (merge_node a b s)
    | None => (Ok tt, merge_node a b s)
    end.
Proof.
  intros Ha Hb. cbn [rmerge].
  rewrite (bind_Ok _ _ _ _ _ (HasPersistentFlags_spec b kb s Hb)).
  unfold merge_node. rewrite Hb. cbv zeta.
  set (sa := upd b (with_pflags kb) s).
  assert (heap sa !! b = Some (with_pflags kb)) as Hb1 by apply lookup_insert_eq.
  assert (∃ ka', heap sa !! a = Some ka' ∧ grows ka ka') as (ka' & Ha1 & Hg).
  { apply (extends_upd b kb (with_pflags kb) s Hb (grows_with_pflags kb) a ka Ha). }
  rewrite Ha1.
  set (fls := pflag.VisitAll (the_pflags kb)).
  set (sb := upd a (visit_cmd fls ka') sa).
  assert ((if pflag.HasFlags (the_pflags kb)
           then fs ← PersistentFlags (Some b); visit (Some a) (pflag.VisitAll fs)
           else mret tt) sa = (Ok tt, sb)) as Hvisit.
  { destruct (pflag.HasFlags (the_pflags kb)) eqn:Hhas.
    - rewrite (bind_Ok _ _ _ _ _ (PersistentFlags_spec b _ sa Hb1)).
      rewrite with_pflags_idem, the_pflags_with_pflags.
      rewrite (upd_id b _ sa Hb1). by apply visit_spec.
    - unfold sb, fls. rewrite (VisitAll_no_flags _ Hhas).
      unfold mret, M_ret. by rewrite upd_id. }
  rewrite (bind_Ok _ _ _ _ _ Hvisit).
  assert (∃ kb', heap sb !! b = Some kb' ∧ grows kb kb') as (kb' & Hb2 & Hgb).
  { destruct (extends_upd a ka' _ sa Ha1 (grows_visit_cmd fls ka') b _ Hb1)
      as (kb' & ? & ?).
    exists kb'. split; [done|].
    eapply grows_trans; [apply grows_with_pflags|done]. }
  rewrite (bind_Ok _ _ _ _ _ (deref_Some b kb' sb Hb2)).
  unfold HasParent. rewrite (grows_parent _ _ Hgb).
  destruct (parent kb) as [p|]; [|done].
  by rewrite bool_decide_eq_true_2.
Qed.

(** ** The climb as a whole *)

Lemma rmerge_dangling fuel c (b : addr) s :
  heap s !! b = None →
  rmerge (S fuel) c (Some b) s = (Panic nil_dereference, s).
Proof.
  intros Hb. cbn [rmerge].
  unfold HasPersistentFlags, PersistentFlags, deref, load, mbind, M_bind.
  by rewrite Hb.
Qed.

Lemma merge_node_extends (a b : addr) s : extends s (merge_node a b s).
Proof.
  unfold merge_node. destruct (heap s !! b) as [kb|] eqn:Hb; [|apply extends_refl].
  cbv zeta. set (sa := upd b (with_pflags kb) s).
  assert (extends s sa) as Hsa by eauto using extends_upd, grows_with_pflags.
  destruct (heap sa !! a) as [ka|] eqn:Ha; [|done].
  eapply extends_trans; [exact Hsa|].
  eauto using extends_upd, grows_visit_cmd.
Qed.

Lemma merge_all_extends (a : addr) l s : extends s (merge_all a l s).
Proof.
  revert s. induction l as [|b l IH]; intros s; [apply extends_refl|].
  unfold merge_all in *. simpl.
  eapply extends_trans; [apply merge_node_extends | apply IH].
Qed.

(** Whatever the outcome of the climb (a return, a fault, no fuel left),
    the state it leaves extends the state it started from. *)
Lemma rmerge_extends fuel (a : addr) ka x s :
  heap s !! a = Some ka →
  extends s (rmerge fuel (Some a) x s).2.
Proof.
  revert x s ka. induction fuel as [|fuel IH]; intros x s ka Ha.
  { apply extends_refl. }
  destruct x as [b|]; [|apply extends_refl].
  destruct (heap s !! b) as [kb|] eqn:Hb.
  - rewrite (rmerge_step fuel a b ka kb s Ha Hb).
    pose proof (merge_node_extends a b s) as Hext.
    destruct (parent kb) as [p|]; [|done].
    destruct (Hext a ka Ha) as (ka' & Ha' & _).
    eapply extends_trans; [exact Hext|]. by eapply IH.
  - rewrite (rmerge_dangling fuel _ b s Hb). apply extends_refl.
Qed.

Lemma ancestry_extends s s' (x : addr) l :
  extends s s' → ancestry (heap s) x l → ancestry (heap s') x l.
Proof.
  intros Hext. induction 1 as [a k Ha Hp | a k p l Ha Hp _ IH].
  - destruct (Hext a k Ha) as (k' & Ha' & Hg).
    eapply ancestry_root; [done|]. by rewrite (grows_parent _ _ Hg).
  - destruct (Hext a k Ha) as (k' & Ha' & Hg).
    eapply ancestry_step; [done| |done]. by rewrite (grows_parent _ _ Hg).
Qed.

Lemma ancestry_cons_inv (h : gmap addr Command) (x y : addr) l :
  ancestry h x (y :: l) →
  y = x ∧ ∃ k, h !! x = Some k
    ∧ ((l = [] ∧ parent k = None) ∨ (∃ p, parent k = Some p ∧ ancestry h p l)).
Proof. inversion 1; subst; eauto 10. Qed.

(** On a finite chain of parents the climb returns, and what it leaves is
    [merge_node] applied along the chain, target first. *)
Lemma rmerge_ancestry fuel (a : addr) ka (b : addr) l s :
  heap s !! a = Some ka →
  ancestry (heap s) b l →
  length l ≤ fuel →
  rmerge fuel (Some a) (Some b) s = (Ok tt, merge_all a l s).
Proof.
  revert b s fuel ka. induction l as [|b' l IH]; intros b s fuel ka Ha Hanc Hfuel.
  { inversion Hanc. }
  destruct fuel as [|fuel]; [simpl in Hfuel; lia|].
  apply ancestry_cons_inv in Hanc as (-> & k & Hb & [[-> Hp]|(p & Hp & Hanc)]).
  - by rewrite (rmerge_step fuel a b ka k s Ha Hb), Hp.
  - rewrite (rmerge_step fuel a b ka k s Ha Hb), Hp.
    pose proof (merge_node_extends a b s) as Hext.
    destruct (Hext a ka Ha) as (ka' & Ha' & _).
    apply (ancestry_extends _ _ _ _ Hext) in Hanc.
    unfold merge_all. simpl. fold (merge_all a l (merge_node a b s)).
    eapply IH; [done..|simpl in Hfuel; lia].
Qed.

Lemma local_flag_extends s s' (a : addr) n f :
  extends s s' →
  local_flag (heap s) a n = Some f → local_flag (heap s') a n = Some f.
Proof.
  intros Hext. unfold local_flag.
  destruct (heap s !! a) as [k|] eqn:Ha; [|done]. simpl. intros Hf.
  destruct (Hext a k Ha) as (k' & -> & Hg). simpl.
  by apply (grows_flags _ _ Hg).
Qed.

Lemma local_lookup_with_pflags k n :
  local_lookup (with_pflags k) n = local_lookup k n.
Proof. unfold local_lookup. by rewrite flags_with_pflags. Qed.

(** What one node of the climb does to the target's local flags: a name
    that is defined stays, a free name gets the first flag of that name
    among the node's persistent flags. *)
Lemma local_flag_merge_node (a b : addr) ka kb s n :
  heap s !! a = Some ka →
  heap s !! b = Some kb →
  local_flag (heap (merge_node a b s)) a n =
    match local_flag (heap s) a n with
    | Some g => Some g
    | None => first_named n (pflag.VisitAll (the_pflags kb))
    end.
Proof.
  intros Ha Hb. unfold merge_node. rewrite Hb. cbv zeta.
  set (sa := upd b (with_pflags kb) s).
  assert (∃ ka', heap sa !! a = Some ka'
                 ∧ ∀ m, local_lookup ka' m = local_lookup ka m)
    as (ka' & Ha' & Hsame).
  { unfold sa. simpl. destruct (decide (b = a)) as [->|Hne].
    - rewrite lookup_insert_eq. simplify_eq.
      eauto using local_lookup_with_pflags.
    - rewrite lookup_insert_ne by done. eauto. }
  rewrite Ha'. unfold local_flag. simpl. rewrite lookup_insert_eq, Ha. simpl.
  by rewrite local_lookup_visit_cmd, Hsame.
Qed.

Lemma settled_extends (a b : addr) s s' :
  extends s s' → settled a b s → settled a b s'.
Proof.
  intros Hext (kb & fs & Hb & Hfs & Hall).
  destruct (Hext b kb Hb) as (kb' & Hb' & Hg).
  exists kb', fs. split_and!; [done|by apply (grows_pflags _ _ Hg)|].
  intros f Hf. destruct (Hall f Hf) as [g Hg'].
  exists g. by eapply local_flag_extends.
Qed.

Lemma settled_merge_node (a b : addr) ka kb s :
  heap s !! a = Some ka →
  heap s !! b = Some kb →
  settled a b (merge_node a b s).
Proof.
  intros Ha Hb.
  assert (extends (upd b (with_pflags kb) s) (merge_node a b s)) as Hext.
  { unfold merge_node. rewrite Hb. cbv zeta.
    destruct (heap (upd b (with_pflags kb) s) !! a) eqn:E;
      eauto using extends_upd, grows_visit_cmd, extends_refl. }
  destruct (Hext b (with_pflags kb)) as (kb' & Hb' & Hg);
    [apply lookup_insert_eq|].
  exists kb', (the_pflags kb). split_and!; [done| |].
  - apply (grows_pflags _ _ Hg), pflags_with_pflags.
  - intros f Hf. rewrite (local_flag_merge_node a b ka kb s _ Ha Hb).
    destruct (local_flag (heap s) a (pflag.Name f)); [done|].
    by apply first_named_is_Some.
Qed.

Lemma settled_noop (a b : addr) ka s :
  heap s !! a = Some ka → settled a b s → merge_node a b s = s.
Proof.
  intros Ha (kb & fs & Hb & Hfs & Hall). unfold merge_node. rewrite Hb. cbv zeta.
  assert (with_pflags kb = kb) as -> by (unfold with_pflags; by rewrite Hfs).
  rewrite (upd_id b kb s Hb), Ha.
  assert (the_pflags kb = fs) as -> by (unfold the_pflags; by rewrite Hfs).
  rewrite visit_cmd_noop; [by apply upd_id|].
  intros f Hf. specialize (Hall f Hf). unfold local_flag in Hall.
  by rewrite Ha in Hall.
Qed.

Lemma merge_all_settled (a : addr) ka l s :
  heap s !! a = Some ka →
  (∀ b, b ∈ l → is_Some (heap s !! b)) →
  ∀ b, b ∈ l → settled a b (merge_all a l s).
Proof.
  revert s ka. induction l as [|b' l IH]; intros s ka Ha Hvalid b Hb.
  { by apply elem_of_nil in Hb. }
  unfold merge_all. simpl. fold (merge_all a l (merge_node a b' s)).
  pose proof (merge_node_extends a b' s) as Hext.
  destruct (Hext a ka Ha) as (ka' & Ha' & _).
  apply elem_of_cons in Hb as [->|Hb].
  - destruct (Hvalid b') as [kb Hkb]; [by left|].
    eapply settled_extends; [apply merge_all_extends|].
    by eapply settled_merge_node.
  - eapply IH; [done| |done].
    intros c Hc. destruct (Hvalid c) as [kc Hkc]; [by right|].
    destruct (Hext c kc Hkc) as (kc' & -> & _). by eexists.
Qed.

Lemma merge_all_noop (a : addr) ka l s :
  heap s !! a = Some ka →
  (∀ b, b ∈ l → settled a b s) →
  merge_all a l s = s.
Proof.
  intros Ha. induction l as [|b l IH]; intros Hall; [done|].
  unfold merge_all. simpl. rewrite (settled_noop a b ka s Ha).
  - apply IH. intros c Hc. apply Hall. by right.
  - apply Hall. by left.
Qed.

Lemma ancestry_valid (h : gmap addr Command) (x : addr) l :
  ancestry h x l → ∀ b, b ∈ l → is_Some (h !! b).
Proof.
  induction 1 as [a k Ha Hp | a k p l Ha Hp _ IH]; intros b Hb.
  - apply list_elem_of_singleton in Hb as ->. by eexists.
  - apply elem_of_cons in Hb as [->|Hb]; [by eexists|by apply IH].
Qed.

(** ** Flag sets in which every flag sits under its own name *)

Lemma wf_NewFlagSet n : pflag.wf (pflag.NewFlagSet n).
Proof. intros k fl H. simpl in H. by rewrite lookup_empty in H. Qed.

Lemma wf_AddFlag f fs : pflag.wf fs → pflag.wf (pflag.AddFlag f fs).
Proof.
  intros Hwf k fl. unfold pflag.AddFlag. simpl. rewrite lookup_insert.
  case_decide; [by intros [= <-]|apply Hwf].
Qed.

Lemma elem_of_VisitAll fs f :
  f ∈ pflag.VisitAll fs ↔ ∃ k, pflag.formal fs !! k = Some f.
Proof.
  unfold pflag.VisitAll. rewrite list_elem_of_fmap. split.
  - intros ([k g] & -> & Hin). exists k. by apply elem_of_map_to_list.
  - intros [k Hk]. exists (k, f). split; [done|]. by apply elem_of_map_to_list.
Qed.

Lemma first_named_wf fs n f :
  pflag.wf fs → pflag.Lookup fs n = Some f →
  first_named n (pflag.VisitAll fs) = Some f.
Proof.
  intros Hwf Hf.
  assert (f ∈ pflag.VisitAll fs) as Hin by (apply elem_of_VisitAll; eauto).
  pose proof (Hwf n f Hf) as Hname.
  destruct (first_named_is_Some _ _ Hin) as [g Hg]. rewrite Hname in Hg.
  destruct (first_named_elem _ _ _ Hg) as [Hgin Hgname].
  apply elem_of_VisitAll in Hgin as [k Hk].
  pose proof (Hwf k g Hk) as Hkg. unfold pflag.Lookup in Hf.
  assert (k = n) as -> by congruence. rewrite Hg. congruence.
Qed.

Lemma first_named_wf_None fs n :
  pflag.wf fs → pflag.Lookup fs n = None →
  first_named n (pflag.VisitAll fs) = None.
Proof.
  intros Hwf Hnone. destruct (first_named n (pflag.VisitAll fs)) as [g|] eqn:Hg; [|done].
  destruct (first_named_elem _ _ _ Hg) as [Hgin Hgname].
  apply elem_of_VisitAll in Hgin as [k Hk].
  pose proof (Hwf k g Hk) as Hkg. unfold pflag.Lookup in Hnone.
  assert (k = n) as -> by congruence. congruence.
Qed.

(** ** The claims on the merger *)

(** C5: a local flag of the target survives the merge under its name with
    its own definition, in whatever state the merge leaves (returned,
    faulted or out of fuel); and on a finite chain of parents the merge
    returns. *)
Theorem merge_keeps_local_flag fuel (c : addr) x fx s :
  local_flag (heap s) c x = Some fx →
  local_flag (heap (mergePersistentFlags fuel (Some c) s).2) c x = Some fx
  ∧ ∀ l, ancestry (heap s) c l → length l ≤ fuel →
      (mergePersistentFlags fuel (Some c) s).1 = Ok tt.
Proof.
  intros Hx.
  assert (∃ k, heap s !! c = Some k) as [k Hc].
  { unfold local_flag in Hx. destruct (heap s !! c); [eauto|done]. }
  split.
  - eapply local_flag_extends; [|exact Hx].
    by eapply rmerge_extends.
  - intros l Hanc Hfuel. unfold mergePersistentFlags.
    by rewrite (rmerge_ancestry fuel c k c l s Hc Hanc Hfuel).
Qed.

(** C6: on a finite chain of parents the merge returns, and a second
    merge on the state it left returns and leaves that state as it is. *)
Theorem merge_idempotent fuel (c : addr) l s :
  ancestry (heap s) c l →
  length l ≤ fuel →
  ∃ s1,
    mergePersistentFlags fuel (Some c) s = (Ok tt, s1)
    ∧ mergePersistentFlags fuel (Some c) s1 = (Ok tt, s1).
Proof.
  intros Hanc Hfuel.
  destruct (ancestry_inv _ _ _ Hanc) as (k & l' & Hc & ->).
  exists (merge_all c (c :: l') s). unfold mergePersistentFlags.
  rewrite (rmerge_ancestry fuel c k c _ s Hc Hanc Hfuel). split; [done|].
  pose proof (merge_all_extends c (c :: l') s) as Hext.
  destruct (Hext c k Hc) as (k1 & Hc1 & _).
  rewrite (rmerge_ancestry fuel c k1 c (c :: l') _ Hc1) by
    eauto using ancestry_extends.
  f_equal. apply (merge_all_noop c k1); [done|].
  eapply merge_all_settled; [done|]. by eapply ancestry_valid.
Qed.

(** C4, as the code has it: when neither the local nor the persistent
    flag set of the target defines the name, and the persistent flag set
    of its parent does, the merge returns and the target's local flag set
    then resolves the name to the parent's definition, whatever the
    grandparent and the ancestors above it define. *)
Theorem merge_nearest_ancestor_wins fuel (c p : addr) l s kc kp fsp x fp :
  ancestry (heap s) c (c :: p :: l) →
  length (c :: p :: l) ≤ fuel →
  heap s !! c = Some kc →
  local_lookup kc x = None →
  pflag.wf (the_pflags kc) →
  pflag.Lookup (the_pflags kc) x = None →
  heap s !! p = Some kp →
  pflags kp = Some fsp →
  pflag.wf fsp →
  pflag.Lookup fsp x = Some fp →
  ∃ s',
    mergePersistentFlags fuel (Some c) s = (Ok tt, s')
    ∧ local_flag (heap s') c x = Some fp.
Proof.
  intros Hanc Hfuel Hc Hlocal Hwfc Hpc Hp Hfsp Hwfp Hpp.
  exists (merge_all c (c :: p :: l) s). unfold mergePersistentFlags.
  rewrite (rmerge_ancestry fuel c kc c _ s Hc Hanc Hfuel). split; [done|].
  unfold merge_all. simpl.
  set (sA := merge_node c c s). set (sB := merge_node c p sA).
  fold (merge_all c l sB).
  assert (local_flag (heap sA) c x = None) as HA.
  { unfold sA. rewrite (local_flag_merge_node c c kc kc s x Hc Hc).
    unfold local_flag. rewrite Hc. simpl. rewrite Hlocal.
    by apply first_named_wf_None. }
  pose proof (merge_node_extends c c s) as Hext. fold sA in Hext.
  destruct (Hext c kc Hc) as (kc' & Hc' & _).
  destruct (Hext p kp Hp) as (kp' & Hp' & Hgp).
  assert (the_pflags kp' = fsp) as Hthe.
  { unfold the_pflags. by rewrite (grows_pflags _ _ Hgp fsp Hfsp). }
  eapply local_flag_extends; [apply merge_all_extends|].
  unfold sB. rewrite (local_flag_merge_node c p kc' kp' sA x Hc' Hp'), HA, Hthe.
  by apply first_named_wf.
Qed.

(** ** The claims on three generations with a flag named x *)

Lemma merge_nearest_ancestor_wins_witness :
  ∃ s',
    mergePersistentFlags 3 (Some 3%positive) generations = (Ok tt, s')
    ∧ local_flag (heap s') 3%positive "x" = Some (flag_x 20 "of the parent").
Proof.
  apply (merge_nearest_ancestor_wins 3 3%positive 2%positive [1%positive]
           generations child_node parent_node
           (pflag.AddFlag (flag_x 20 "of the parent") (pflag.NewFlagSet "remote"))
           "x" (flag_x 20 "of the parent")).
  - eapply ancestry_step; [by vm_compute | reflexivity |].
    eapply ancestry_step; [by vm_compute | reflexivity |].
    eapply ancestry_root; [by vm_compute | reflexivity].
  - simpl. lia.
  - by vm_compute.
  - reflexivity.
  - apply wf_NewFlagSet.
  - by vm_compute.
  - by vm_compute.
  - reflexivity.
  - apply wf_AddFlag, wf_NewFlagSet.
  - by vm_compute.
Defined.

Lemma merge_keeps_local_flag_witness :
  local_flag
    (heap (mergePersistentFlags 3 (Some 3%positive) generations_local).2)
    3%positive "x" = Some (flag_x 30 "of the child")
  ∧ ∀ l, ancestry (heap generations_local) 3%positive l → length l ≤ 3 →
      (mergePersistentFlags 3 (Some 3%positive) generations_local).1 = Ok tt.
Proof.
  apply (merge_keeps_local_flag 3 3%positive "x" (flag_x 30 "of the child")
           generations_local).
  by vm_compute.
Defined.

Lemma merge_idempotent_witness :
  ∃ s1,
    mergePersistentFlags 3 (Some 3%positive) generations = (Ok tt, s1)
    ∧ mergePersistentFlags 3 (Some 3%positive) s1 = (Ok tt, s1).
Proof.
  apply (merge_idempotent 3 3%positive [3; 2; 1]%positive generations).
  - eapply ancestry_step; [by vm_compute | reflexivity |].
    eapply ancestry_step; [by vm_compute | reflexivity |].
    eapply ancestry_root; [by vm_compute | reflexivity].
  - simpl. lia.
Defined.

(** C4 as stated fails: the climb starts at the target itself, so a
    persistent flag x of the target is merged before the parent's.  The
    child's local flag set does not define x, parent and grandparent both
    define it as a persistent flag, and after the merge the child resolves
    x to its own persistent flag, not to the parent's. *)
Lemma merge_own_persistent_flag_first :
  (AddCommand (Some 1%positive) [Some 2%positive];;
   AddCommand (Some 2%positive) [Some 3%positive];;
   AddPersistentFlag (Some 1%positive) (flag_x 10 "of the grandparent");;
   AddPersistentFlag (Some 2%positive) (flag_x 20 "of the parent");;
   AddPersistentFlag (Some 3%positive) (flag_x 30 "of the child"))
    fresh_generations = (Ok tt, generations_own)
  ∧ local_flag (heap generations_own) 3%positive "x" = None
  ∧ (parent <$> heap generations_own !! 3%positive) = Some (Some 2%positive)
  ∧ (parent <$> heap generations_own !! 2%positive) = Some (Some 1%positive)
  ∧ persistent_flag (heap generations_own) 2%positive "x"
      = Some (flag_x 20 "of the parent")
  ∧ persistent_flag (heap generations_own) 1%positive "x"
      = Some (flag_x 10 "of the grandparent")
  ∧ (mergePersistentFlags 3 (Some 3%positive) generations_own).1 = Ok tt
  ∧ local_flag
      (heap (mergePersistentFlags 3 (Some 3%positive) generations_own).2)
      3%positive "x" = Some (flag_x 30 "of the child")
  ∧ local_flag
      (heap (mergePersistentFlags 3 (Some 3%positive) generations_own).2)
      3%positive "x" ≠ Some (flag_x 20 "of the parent").
Proof. split_and!; by vm_compute. Qed.

(** * More on the resolver *)

Lemma load_Ok_inv (h : gmap addr Command) p k :
  load h p = Ok k → ∃ a : addr, p = Some a ∧ h !! a = Some k.
Proof.
  unfold load. destruct p as [a|]; [|done].
  destruct (h !! a) eqn:E; [|done]. intros [= ->]. eauto.
Qed.

Lemma load_not_fuel (h : gmap addr Command) p : load h p ≠ OutOfFuel.
Proof. unfold load. destruct p as [a|]; [|done]. by destruct (h !! a). Qed.

(** What the loop of [Find] returned, when it returned. *)
Lemma scan_Some_inv (h : gmap addr Command) descend arg0 cmds r :
  scan h descend arg0 cmds = Some r →
  (∃ (ch : addr) kch, Some ch ∈ cmds ∧ h !! ch = Some kch
     ∧ Name kch = arg0 ∧ r = descend (Some ch))
  ∨ (∃ msg, r = Panic msg).
Proof.
  induction cmds as [|p cmds IH]; simpl; [done|].
  destruct (load h p) as [k|msg|] eqn:Hl.
  - case_decide as Hn.
    + intros [= <-]. left.
      destruct (load_Ok_inv _ _ _ Hl) as (a & -> & Ha).
      exists a, k. split_and!; [by left|done..].
    + intros Hr. destruct (IH Hr) as [(ch & kch & Hin & ?)|?]; [left|by right].
      exists ch, kch. split; [by right|done].
  - intros [= <-]. right. eauto.
  - by destruct (load_not_fuel h p).
Qed.

Lemma Find_dangling (h : gmap addr Command) (c : addr) args :
  h !! c = None → Find h (Some c) args = Panic nil_dereference.
Proof. intros Hc. destruct args as [|? [|? ?]]; simpl; by rewrite Hc. Qed.

(** Everything [Find] guarantees about a target it returns. *)
Lemma Find_Some_inv (h : gmap addr Command) args (c : addr) t a e :
  Find h (Some c) args = Ok (Some t, a, e) →
  e = None
  ∧ (∃ k, h !! t = Some k ∧ Runnable k = true)
  ∧ ∃ names, args = names ++ a ∧ descends h c names t ∧ (args ≠ [] → a ≠ []).
Proof.
  revert c. induction args as [|arg0 args IH]; intros c HF.
  all: destruct (h !! c) as [k|] eqn:Hc;
    [rewrite (Find_unfold h c k _ Hc) in HF
    |by rewrite (Find_dangling h c _ Hc) in HF].
  - rewrite Find_tail_eq in HF. destruct (Runnable k) eqn:Hr; [|done].
    simplify_eq. split_and!; [done|eauto|].
    exists []. split_and!; [done|constructor|done].
  - assert (Find_tail (Some c) k (arg0 :: args) = Ok (Some t, a, e) →
            e = None ∧ (∃ k0, h !! t = Some k0 ∧ Runnable k0 = true)
            ∧ ∃ names, arg0 :: args = names ++ a ∧ descends h c names t
                ∧ (arg0 :: args ≠ [] → a ≠ [])) as Htail.
    { rewrite Find_tail_eq. destruct (Runnable k) eqn:Hr; [|done].
      intros ?. simplify_eq. split_and!; [done|eauto|].
      exists []. split_and!; [done|constructor|done]. }
    destruct args as [|arg1 rest]; [by apply Htail|].
    destruct (HasSubCommands k); [|by apply Htail].
    destruct (scan h _ arg0 (commands k)) as [r|] eqn:Hscan; [|by apply Htail].
    apply scan_Some_inv in Hscan
      as [(ch & kch & Hin & Hch & Hname & ->)|[msg ->]]; [|done].
    destruct (IH ch HF) as (-> & Hrun & names & Hargs & Hdesc & Hne).
    split_and!; [done..|].
    exists (arg0 :: names). split_and!.
    + by rewrite Hargs at 1.
    + rewrite <- Hname. by eapply descends_child.
    + intros _. by apply Hne.
Qed.

(** X1: a target that [Find] returns is a runnable node of the heap, and
    it comes with no error. *)
Theorem Find_target_runnable (h : gmap addr Command) c args t a e :
  Find h c args = Ok (Some t, a, e) →
  e = None ∧ ∃ k, h !! t = Some k ∧ Runnable k = true.
Proof.
  destruct c as [c|]; [|by destruct args].
  intros HF. destruct (Find_Some_inv h args c t a e HF) as (? & ? & _). eauto.
Qed.

(** X2: the arguments [Find] consumed are the names of the children it
    went through, one after the other, from the node it started at down
    to the target; what it returns beside the target is the rest of the
    argument list. *)
Theorem Find_consumes_names (h : gmap addr Command) (c : addr) args t a e :
  Find h (Some c) args = Ok (Some t, a, e) →
  ∃ names, args = names ++ a ∧ descends h c names t.
Proof.
  intros HF. destruct (Find_Some_inv h args c t a e HF)
    as (_ & _ & names & ? & ? & _). eauto.
Qed.

(** X3: [Find] never consumes the last argument: of a non-empty argument
    list at least one argument is left for the target, even when it names
    a child. *)
Theorem Find_keeps_last_argument (h : gmap addr Command) c args t a e :
  Find h c args = Ok (Some t, a, e) →
  args ≠ [] →
  a ≠ [].
Proof.
  destruct c as [c|]; [|by destruct args].
  intros HF. destruct (Find_Some_inv h args c t a e HF)
    as (_ & _ & names & _ & _ & ?). done.
Qed.

Lemma scan_closed (h : gmap addr Command) descend arg0 cmds :
  Forall (allocated h) cmds →
  (∀ ch : addr, is_Some (h !! ch) →
     ∃ t a, descend (Some ch) = Ok (t, a, @None error)) →
  scan h descend arg0 cmds = None
  ∨ ∃ t a, scan h descend arg0 cmds = Some (Ok (t, a, None)).
Proof.
  intros Hall Hd. induction Hall as [|p cmds (ch & -> & [k Hk]) _ IH];
    simpl; [by left|].
  rewrite Hk. case_decide; [|done]. right.
  destruct (Hd ch) as (t & a & ->); eauto.
Qed.

(** X4: on a heap in which every child pointer leads to a node, [Find]
    on a node returns for every argument list, without panic and without
    error: either a target or [(nil, nil, nil)]. *)
Theorem Find_total_on_closed (h : gmap addr Command) (c : addr) args :
  closed h →
  is_Some (h !! c) →
  ∃ t a, Find h (Some c) args = Ok (t, a, None).
Proof.
  intros Hclosed. revert c.
  induction args as [|arg0 args IH]; intros c [k Hc];
    rewrite (Find_unfold h c k _ Hc).
  - rewrite Find_tail_eq. destruct (Runnable k); eauto.
  - assert (∃ t a, Find_tail (Some c) k (arg0 :: args) = Ok (t, a, None))
      as Htail by (rewrite Find_tail_eq; destruct (Runnable k); eauto).
    destruct args as [|arg1 rest]; [done|].
    destruct (HasSubCommands k); [|done].
    pose proof (scan_closed h (λ cmd, Find h cmd (arg1 :: rest)) arg0
                  (commands k) (Hclosed c k Hc) (λ ch Hch, IH ch Hch)) as Hscan.
    destruct (scan h _ arg0 (commands k)) as [r|]; [|done].
    destruct Hscan as [?|(t & a & [= ->])]; [done|eauto].
Qed.

(** Decomposes a lookup in a heap written out as a literal. *)
Ltac lookup_cases H :=
  first [ rewrite lookup_insert in H; case_decide; [simplify_eq/=|lookup_cases H]
        | rewrite lookup_singleton in H; case_decide; [simplify_eq/=|done]
        | by rewrite lookup_empty in H ].

Lemma twins_closed : closed twins.
Proof.
  intros a k H. unfold twins in H. lookup_cases H.
  - repeat (apply Forall_cons_2; [solve_allocated|]). apply Forall_nil_2.
  - apply Forall_nil_2.
  - apply Forall_nil_2.
  - apply Forall_nil_2.
Qed.

Lemma Find_target_runnable_witness :
  @None error = None ∧ ∃ k, twins !! 3%positive = Some k ∧ Runnable k = true.
Proof.
  apply (Find_target_runnable twins (Some 1%positive) ["two"; "a"; "b"]
           3%positive ["a"; "b"] None).
  by vm_compute.
Defined.

Lemma Find_consumes_names_witness :
  ∃ names, ["two"; "a"; "b"] = names ++ ["a"; "b"]
           ∧ descends twins 1%positive names 3%positive.
Proof.
  apply (Find_consumes_names twins 1%positive ["two"; "a"; "b"]
           3%positive ["a"; "b"] None).
  by vm_compute.
Defined.

(** A single argument that names a runnable child stays with the
    parent. *)
Lemma Find_keeps_last_argument_witness :
  Find runnable_twins (Some 1%positive) ["two"]
    = Ok (Some 1%positive, ["two"], None)
  ∧ ["two"] ≠ @nil string.
Proof.
  split; [by vm_compute|].
  apply (Find_keeps_last_argument runnable_twins (Some 1%positive) ["two"]
           1%positive ["two"] None).
  - by vm_compute.
  - done.
Defined.

Lemma Find_total_on_closed_witness :
  ∃ t a, Find twins (Some 1%positive) ["nope"; "a"] = Ok (t, a, None).
Proof.
  apply (Find_total_on_closed twins 1%positive ["nope"; "a"]).
  - exact twins_closed.
  - eexists. by vm_compute.
Defined.

(** * More on the dispatcher *)

Lemma quiet_ret {A} (a : A) : quiet (mret a).
Proof. done. Qed.

Lemma quiet_panic {A} msg : quiet (@panic A msg).
Proof. done. Qed.

Lemma quiet_bind {A B} (m : M A) (f : A → M B) :
  quiet m → (∀ a, quiet (f a)) → quiet (m ≫= f).
Proof.
  intros Hm Hf s. unfold mbind, M_bind. specialize (Hm s).
  destruct (m s) as [[a|msg|] s1]; simpl in *; [|done..].
  by rewrite Hf.
Qed.

Lemma quiet_deref c : quiet (deref c).
Proof. done. Qed.

Lemma quiet_modify c f : quiet (modify c f).
Proof.
  intros s. unfold modify. destruct (load (heap s) c) as [k|msg|]; [|done..].
  by destruct c.
Qed.

Lemma quiet_Flags c : quiet (Flags c).
Proof.
  apply quiet_bind; [apply quiet_deref|]. intros k.
  destruct (flags k); [apply quiet_ret|].
  repeat (apply quiet_bind; [|intros ?]);
    try case_decide; auto using quiet_modify, quiet_deref, quiet_ret.
Qed.

Lemma quiet_PersistentFlags c : quiet (PersistentFlags c).
Proof.
  apply quiet_bind; [apply quiet_deref|]. intros k.
  destruct (pflags k); [apply quiet_ret|].
  repeat (apply quiet_bind; [|intros ?]);
    try case_decide; auto using quiet_modify, quiet_deref, quiet_ret.
Qed.

Lemma quiet_visit c fls : quiet (visit c fls).
Proof.
  induction fls as [|f fls IH]; [apply quiet_ret|].
  apply quiet_bind; [|by intros].
  apply quiet_bind; [apply quiet_Flags|]. intros fs.
  case_decide; [|apply quiet_ret].
  apply quiet_bind; [apply quiet_Flags|]. intros ?. apply quiet_modify.
Qed.

Lemma quiet_rmerge fuel c x : quiet (rmerge fuel c x).
Proof.
  revert x. induction fuel as [|fuel IH]; intros x; [done|].
  cbn [rmerge]. apply quiet_bind.
  { apply quiet_bind; [apply quiet_PersistentFlags|]. intros ?. apply quiet_ret. }
  intros b. apply quiet_bind.
  { destruct b; [|apply quiet_ret].
    apply quiet_bind; [apply quiet_PersistentFlags|]. intros ?. apply quiet_visit. }
  intros _. apply quiet_bind; [apply quiet_deref|]. intros k.
  destruct (HasParent k); [apply IH|apply quiet_ret].
Qed.

(** [ParseFlags] calls no application code. *)
Lemma quiet_ParseFlags Parse fuel c args : quiet (ParseFlags Parse fuel c args).
Proof.
  unfold ParseFlags. apply quiet_bind; [apply quiet_rmerge|]. intros _.
  apply quiet_bind; [apply quiet_Flags|]. intros fs.
  destruct (Parse fs args) as [fs' err].
  apply quiet_bind; [apply quiet_modify|]. intros _. apply quiet_ret.
Qed.

(** X5: whatever its receiver, arguments and outcome, [execute] calls
    application code at most once: it leaves the trace as it was, or adds
    one call of the usage function, or adds one call of a run action; and
    a run action is called only on the target [Find] resolved, after which
    [execute] returns no error. *)
Theorem execute_at_most_one_event Parse fuel c args s :
  let r := execute Parse fuel c args s in
  trace r.2 = trace s
  ∨ (∃ t, trace r.2 = trace s ++ [EvUsage t])
  ∨ (∃ act t a a0,
       trace r.2 = trace s ++ [EvRun act t a]
       ∧ Find (heap s) c args = Ok (t, a0, None)
       ∧ r.1 = Ok None).
Proof.
  intros r. assert (r = execute Parse fuel c args s) as Hr by done.
  clearbody r. unfold execute in Hr.
  destruct args as [|arg0 args]; [subst r; by left|].
  destruct c as [c|]; [|subst r; by left].
  unfold Find_m, mbind at 1, M_bind at 1 in Hr.
  destruct (Find (heap s) (Some c) (arg0 :: args)) as [[[t a0] e]|msg|] eqn:HF;
    [|subst r; by left..].
  destruct e as [e|]; [subst r; by left|].
  unfold mbind at 1, M_bind at 1 in Hr.
  pose proof (quiet_ParseFlags Parse fuel t a0 s) as Hq.
  destruct (ParseFlags Parse fuel t a0 s) as [[[e|]|msg|] s1];
    simpl in Hq; [| |subst r; by left..].
  - unfold Usage, emit, deref, mbind, M_bind in Hr.
    destruct (load (heap s1) t) as [k|msg|]; [|subst r; by left..].
    destruct (load (heap s1) (cmdr k)) as [k'|msg|]; [|subst r; by left..].
    right. left. exists t. subst r. simpl. by rewrite Hq.
  - unfold mbind at 1, M_bind at 1 in Hr.
    pose proof (quiet_Flags t s1) as Hq1.
    destruct (Flags t s1) as [[fs|msg|] s2]; simpl in Hq1;
      [|subst r; left; simpl; congruence..].
    unfold emit, deref, mbind, M_bind in Hr.
    destruct (load (heap s2) t) as [k|msg|]; [|subst r; left; simpl; congruence..].
    destruct (Run k) as [act|]; [|subst r; left; simpl; congruence].
    right. right. exists act, t, (pflag.Args fs), a0. subst r. simpl.
    split_and!; [congruence|done..].
Qed.

(** What [ParseFlags] does on a target with a finite chain of parents:
    the merge, then the parse on the merged local flag set, which is
    stored back. *)
Lemma ParseFlags_ancestry Parse fuel (t : addr) a l s k :
  heap s !! t = Some k →
  ancestry (heap s) t l →
  length l ≤ fuel →
  ∃ s1 k1,
    mergePersistentFlags fuel (Some t) s = (Ok tt, s1)
    ∧ trace s1 = trace s
    ∧ heap s1 !! t = Some k1
    ∧ grows k k1
    ∧ ParseFlags Parse fuel (Some t) a s
      = (Ok (Parse (the_flags k1) a).2,
         upd t (set_flags (Some (Parse (the_flags k1) a).1) (with_flags k1)) s1).
Proof.
  intros Ht Hanc Hfuel.
  pose proof (rmerge_ancestry fuel t k t l s Ht Hanc Hfuel) as Hm.
  set (s1 := merge_all t l s) in *.
  destruct (merge_all_extends t l s t k Ht) as (k1 & Ht1 & Hg).
  exists s1, k1. split_and!; [done| |done..|].
  { pose proof (quiet_rmerge fuel (Some t) (Some t) s) as Hq.
    by rewrite Hm in Hq. }
  unfold ParseFlags, mergePersistentFlags.
  rewrite (bind_Ok _ _ _ _ _ Hm).
  rewrite (bind_Ok _ _ _ _ _ (Flags_spec t k1 s1 Ht1)).
  destruct (Parse (the_flags k1) a) as [fs' err]. simpl.
  rewrite (bind_Ok _ _ _ _ _
             (modify_Some t (with_flags k1) _ (upd t (with_flags k1) s1)
                (lookup_insert_eq _ _ _))).
  by rewrite upd_upd.
Qed.

Lemma Usage_spec (t : addr) k s :
  heap s !! t = Some k →
  Usage (Some t) s =
    match load (heap s) (cmdr k) with
    | Ok _ => (Ok tt, (emit (EvUsage (Some t)) s).2)
    | _ => (Panic nil_dereference, s)
    end.
Proof.
  intros Ht. unfold Usage. rewrite (bind_Ok _ _ _ _ _ (deref_Some t k s Ht)).
  unfold deref, mbind, M_bind.
  destruct (load (heap s) (cmdr k)) as [km|msg|] eqn:Hl; [done| |].
  - unfold load in Hl. destruct (cmdr k) as [m|]; [|by simplify_eq].
    destruct (heap s !! m); by simplify_eq.
  - by destruct (load_not_fuel _ _ Hl).
Qed.

(** What [execute] does once [Find] has resolved a target with a finite
    chain of parents, by the result of the parse. *)
Lemma execute_resolved Parse fuel (c t : addr) args a l s k :
  args ≠ [] →
  Find (heap s) (Some c) args = Ok (Some t, a, None) →
  heap s !! t = Some k →
  ancestry (heap s) t l →
  length l ≤ fuel →
  ∃ s1 k1 act,
    mergePersistentFlags fuel (Some t) s = (Ok tt, s1)
    ∧ trace s1 = trace s
    ∧ heap s1 !! t = Some k1
    ∧ Run k = Some act
    ∧ execute Parse fuel (Some c) args s =
        let s2 := upd t (set_flags (Some (Parse (the_flags k1) a).1)
                           (with_flags k1)) s1 in
        match (Parse (the_flags k1) a).2 with
        | None =>
            (Ok None,
             (emit (EvRun act (Some t) (pflag.Args (Parse (the_flags k1) a).1)) s2).2)
        | Some e =>
            match load (heap s2) (cmdr k) with
            | Ok _ => (Ok (Some e), (emit (EvUsage (Some t)) s2).2)
            | _ => (Panic nil_dereference, s2)
            end
        end.
Proof.
  intros Hargs HF Ht Hanc Hfuel.
  destruct (Find_Some_inv _ _ _ _ _ _ HF) as (_ & (k' & Ht' & Hrun) & _).
  simplify_eq. unfold Runnable in Hrun. apply bool_decide_eq_true in Hrun.
  destruct (Run k) as [act|] eqn:Hact; [|done].
  destruct (ParseFlags_ancestry Parse fuel t a l s k Ht Hanc Hfuel)
    as (s1 & k1 & Hm & Htr & Ht1 & Hg & HP).
  exists s1, k1, act. split_and!; [done..|].
  destruct args as [|arg0 args]; [done|]. unfold execute.
  unfold Find_m, mbind at 1, M_bind at 1. rewrite HF.
  rewrite (bind_Ok _ _ _ _ _ HP). cbv zeta.
  set (fs' := (Parse (the_flags k1) a).1).
  set (k2 := set_flags (Some fs') (with_flags k1)).
  set (s2 := upd t k2 s1).
  assert (heap s2 !! t = Some k2) as Ht2 by apply lookup_insert_eq.
  assert (cmdr k2 = cmdr k) as Hcmdr.
  { unfold k2. simpl. rewrite (grows_cmdr _ _ (grows_with_flags k1)).
    apply (grows_cmdr _ _ Hg). }
  assert (Run k2 = Some act) as Hrun2.
  { unfold k2. simpl. rewrite (grows_Run _ _ (grows_with_flags k1)).
    by rewrite (grows_Run _ _ Hg). }
  destruct (Parse (the_flags k1) a).2 as [e|].
  - unfold mbind, M_bind. rewrite (Usage_spec t k2 s2 Ht2), Hcmdr.
    by destruct (load (heap s2) (cmdr k)).
  - rewrite (bind_Ok _ _ _ _ _ (Flags_spec t k2 s2 Ht2)).
    assert (with_flags k2 = k2) as -> by done.
    rewrite (upd_id t k2 s2 Ht2).
    rewrite (bind_Ok _ _ _ _ _ (deref_Some t k2 s2 Ht2)).
    rewrite Hrun2. unfold emit, mbind, M_bind. simpl. done.
Qed.

(** X6: when [Find] resolves a target whose chain of parents is finite
    and the parse of the rest of the arguments against the merged local
    flag set succeeds, [execute] calls the run action of the target once,
    with the target and the arguments the parse left over, stores the
    parsed flag set at the target, and returns no error. *)
Theorem execute_runs_target Parse fuel (c t : addr) args a l s k :
  args ≠ [] →
  Find (heap s) (Some c) args = Ok (Some t, a, None) →
  heap s !! t = Some k →
  ancestry (heap s) t l →
  length l ≤ fuel →
  ∃ s1 k1 act,
    mergePersistentFlags fuel (Some t) s = (Ok tt, s1)
    ∧ trace s1 = trace s
    ∧ heap s1 !! t = Some k1
    ∧ Run k = Some act
    ∧ ∀ fs', Parse (the_flags k1) a = (fs', None) →
        execute Parse fuel (Some c) args s
        = (Ok None,
           (emit (EvRun act (Some t) (pflag.Args fs'))
              (upd t (set_flags (Some fs') (with_flags k1)) s1)).2).
Proof.
  intros Hargs HF Ht Hanc Hfuel.
  destruct (execute_resolved Parse fuel c t args a l s k Hargs HF Ht Hanc Hfuel)
    as (s1 & k1 & act & Hm & Htr & Ht1 & Hact & Hex).
  exists s1, k1, act. split_and!; [done..|].
  intros fs' HP. rewrite Hex, HP. done.
Qed.

(** X7: when the parse fails on a target that has a commander,
    [execute] calls the usage function on the target once, calls no run
    action, and returns the error of the parse. *)
Theorem execute_parse_error_usage Parse fuel (c t : addr) args a l s k m :
  args ≠ [] →
  Find (heap s) (Some c) args = Ok (Some t, a, None) →
  heap s !! t = Some k →
  ancestry (heap s) t l →
  length l ≤ fuel →
  cmdr k = Some m →
  is_Some (heap s !! m) →
  ∃ s1 k1,
    mergePersistentFlags fuel (Some t) s = (Ok tt, s1)
    ∧ trace s1 = trace s
    ∧ heap s1 !! t = Some k1
    ∧ ∀ fs' e, Parse (the_flags k1) a = (fs', Some e) →
        execute Parse fuel (Some c) args s
        = (Ok (Some e),
           (emit (EvUsage (Some t))
              (upd t (set_flags (Some fs') (with_flags k1)) s1)).2).
Proof.
  intros Hargs HF Ht Hanc Hfuel Hcmdr [km Hkm].
  destruct (execute_resolved Parse fuel c t args a l s k Hargs HF Ht Hanc Hfuel)
    as (s1 & k1 & act & Hm & Htr & Ht1 & Hact & Hex).
  exists s1, k1. split_and!; [done..|].
  intros fs' e HP. rewrite Hex, HP. cbv zeta. simpl.
  assert (extends s s1) as Hext.
  { unfold mergePersistentFlags in Hm.
    pose proof (rmerge_extends fuel t k (Some t) s Ht) as H. by rewrite Hm in H. }
  destruct (Hext m km Hkm) as (km1 & Hkm1 & _).
  rewrite Hcmdr. unfold load. rewrite lookup_insert. case_decide; [done|].
  by rewrite Hkm1.
Qed.

(** X8: when the parse fails on a target that has no commander (a node
    that was never attached under one), [execute] panics with a nil
    dereference in [Usage] instead of returning the error of the parse. *)
Theorem execute_parse_error_no_commander Parse fuel (c t : addr) args a l s k :
  args ≠ [] →
  Find (heap s) (Some c) args = Ok (Some t, a, None) →
  heap s !! t = Some k →
  ancestry (heap s) t l →
  length l ≤ fuel →
  cmdr k = None →
  ∃ s1 k1,
    mergePersistentFlags fuel (Some t) s = (Ok tt, s1)
    ∧ trace s1 = trace s
    ∧ heap s1 !! t = Some k1
    ∧ ∀ fs' e, Parse (the_flags k1) a = (fs', Some e) →
        execute Parse fuel (Some c) args s
        = (Panic nil_dereference,
           upd t (set_flags (Some fs') (with_flags k1)) s1).
Proof.
  intros Hargs HF Ht Hanc Hfuel Hcmdr.
  destruct (execute_resolved Parse fuel c t args a l s k Hargs HF Ht Hanc Hfuel)
    as (s1 & k1 & act & Hm & Htr & Ht1 & Hact & Hex).
  exists s1, k1. split_and!; [done..|].
  intros fs' e HP. rewrite Hex, HP. cbv zeta. simpl. by rewrite Hcmdr.
Qed.

Lemma execute_runs_target_witness :
  (∃ s1 k1 act,
     mergePersistentFlags 1 (Some 1%positive) commander_root = (Ok tt, s1)
     ∧ trace s1 = trace commander_root
     ∧ heap s1 !! 1%positive = Some k1
     ∧ Run (set_cmdr (Some 1%positive) (new_Command "app [flags]" (Some 0)))
         = Some act
     ∧ ∀ fs', parse_positional (the_flags k1) ["a"; "b"] = (fs', None) →
         execute parse_positional 1 (Some 1%positive) ["a"; "b"] commander_root
         = (Ok None,
            (emit (EvRun act (Some 1%positive) (pflag.Args fs'))
               (upd 1%positive (set_flags (Some fs') (with_flags k1)) s1)).2))
  ∧ trace (execute parse_positional 1 (Some 1%positive) ["a"; "b"]
             commander_root).2
    = [EvRun 0 (Some 1%positive) ["a"; "b"]].
Proof.
  split; [|by vm_compute].
  apply (execute_runs_target parse_positional 1 1%positive 1%positive
           ["a"; "b"] ["a"; "b"] [1%positive] commander_root
           (set_cmdr (Some 1%positive) (new_Command "app [flags]" (Some 0)))).
  - done.
  - by vm_compute.
  - by vm_compute.
  - eapply ancestry_root; [by vm_compute | reflexivity].
  - simpl. lia.
Defined.

Lemma execute_parse_error_usage_witness :
  (∃ s1 k1,
     mergePersistentFlags 1 (Some 1%positive) commander_root = (Ok tt, s1)
     ∧ trace s1 = trace commander_root
     ∧ heap s1 !! 1%positive = Some k1
     ∧ ∀ fs' e, parse_reject (the_flags k1) ["--bad"] = (fs', Some e) →
         execute parse_reject 1 (Some 1%positive) ["--bad"] commander_root
         = (Ok (Some e),
            (emit (EvUsage (Some 1%positive))
               (upd 1%positive (set_flags (Some fs') (with_flags k1)) s1)).2))
  ∧ trace (execute parse_reject 1 (Some 1%positive) ["--bad"] commander_root).2
    = [EvUsage (Some 1%positive)].
Proof.
  split; [|by vm_compute].
  apply (execute_parse_error_usage parse_reject 1 1%positive 1%positive
           ["--bad"] ["--bad"] [1%positive] commander_root
           (set_cmdr (Some 1%positive) (new_Command "app [flags]" (Some 0)))
           1%positive).
  - done.
  - by vm_compute.
  - by vm_compute.
  - eapply ancestry_root; [by vm_compute | reflexivity].
  - simpl. lia.
  - reflexivity.
  - eexists. by vm_compute.
Defined.

Lemma execute_parse_error_no_commander_witness :
  let s := {| heap := runnable_root; trace := [] |} in
  (∃ s1 k1,
     mergePersistentFlags 1 (Some 1%positive) s = (Ok tt, s1)
     ∧ trace s1 = trace s
     ∧ heap s1 !! 1%positive = Some k1
     ∧ ∀ fs' e, parse_reject (the_flags k1) ["--bad"] = (fs', Some e) →
         execute parse_reject 1 (Some 1%positive) ["--bad"] s
         = (Panic nil_dereference,
            upd 1%positive (set_flags (Some fs') (with_flags k1)) s1))
  ∧ (execute parse_reject 1 (Some 1%positive) ["--bad"] s).1
    = Panic nil_dereference.
Proof.
  intros s. split; [|by vm_compute].
  apply (execute_parse_error_no_commander parse_reject 1 1%positive 1%positive
           ["--bad"] ["--bad"] [1%positive] s
           (new_Command "app [flags]" (Some 0))).
  - done.
  - by vm_compute.
  - by vm_compute.
  - eapply ancestry_root; [by vm_compute | reflexivity].
  - simpl. lia.
  - reflexivity.
Defined.

(** * More on flags: climbing lookups and the frame of the merge *)

Lemma grows_Name k k' : grows k k' → Name k' = Name k.
Proof.
  intros Hg. unfold Name.
  by rewrite (grows_name _ _ Hg), (grows_Use _ _ Hg).
Qed.

Lemma the_pflags_with_flags k : the_pflags (with_flags k) = the_pflags k.
Proof.
  unfold the_pflags.
  by rewrite pflags_with_flags, (grows_Name _ _ (grows_with_flags k)).
Qed.

Lemma pflags_visit_cmd fls k : pflags (visit_cmd fls k) = pflags k.
Proof.
  revert k. induction fls as [|f fls IH]; intros k; [done|].
  unfold visit_cmd in *. simpl. by rewrite IH, pflags_merge_one.
Qed.

Lemma the_pflags_visit_cmd fls k : the_pflags (visit_cmd fls k) = the_pflags k.
Proof.
  unfold the_pflags.
  by rewrite pflags_visit_cmd, (grows_Name _ _ (grows_visit_cmd fls k)).
Qed.

Lemma flags_merge_node_other (a b p : addr) s :
  p ≠ a → (flags <$> heap (merge_node a b s) !! p) = (flags <$> heap s !! p).
Proof.
  intros Hpa. unfold merge_node.
  destruct (heap s !! b) as [kb|] eqn:Hb; [|done]. cbv zeta.
  assert ((flags <$> heap (upd b (with_pflags kb) s) !! p) = (flags <$> heap s !! p))
    as Hsa.
  { simpl. rewrite lookup_insert. case_decide; [|done].
    subst p. rewrite Hb. simpl. by rewrite flags_with_pflags. }
  destruct (heap (upd b (with_pflags kb) s) !! a) as [ka|]; [|done].
  unfold upd at 1. simpl heap. by rewrite lookup_insert_ne.
Qed.

Lemma the_pflags_at_upd (b : addr) kb kb' s p :
  heap s !! b = Some kb → the_pflags kb' = the_pflags kb →
  the_pflags_at (heap (upd b kb' s)) p = the_pflags_at (heap s) p.
Proof.
  intros Hb Heq. unfold the_pflags_at. simpl. rewrite lookup_insert.
  case_decide; [|done]. subst p. rewrite Hb. simpl. by rewrite Heq.
Qed.

Lemma the_pflags_at_merge_node (a b : addr) s p :
  the_pflags_at (heap (merge_node a b s)) p = the_pflags_at (heap s) p.
Proof.
  unfold merge_node. destruct (heap s !! b) as [kb|] eqn:Hb; [|done]. cbv zeta.
  pose proof (the_pflags_at_upd b kb (with_pflags kb) s p Hb
                (the_pflags_with_pflags kb)) as Hsa.
  destruct (heap (upd b (with_pflags kb) s) !! a) as [ka|] eqn:Ha; [|done].
  rewrite <- Hsa. apply (the_pflags_at_upd a ka); [done|].
  apply the_pflags_visit_cmd.
Qed.

Lemma persistent_flag_alt (h : gmap addr Command) (b : addr) n :
  persistent_flag h b n = the_pflags_at h b ≫= (λ fs, pflag.Lookup fs n).
Proof.
  unfold persistent_flag, the_pflags_at, the_pflags.
  destruct (h !! b) as [k|]; [|done]. simpl.
  destruct (pflags k); [done|]. simpl. symmetry. apply lookup_empty.
Qed.

Lemma chain_persistent_same (h h' : gmap addr Command) l n :
  (∀ p, the_pflags_at h' p = the_pflags_at h p) →
  chain_persistent h' l n = chain_persistent h l n.
Proof.
  intros Hsame. induction l as [|b l IH]; [done|].
  simpl. by rewrite !persistent_flag_alt, Hsame, IH.
Qed.

Lemma chain_first_same (h h' : gmap addr Command) l n :
  (∀ p, the_pflags_at h' p = the_pflags_at h p) →
  chain_first h' l n = chain_first h l n.
Proof.
  intros Hsame. induction l as [|b l IH]; [done|].
  simpl. by rewrite Hsame, IH.
Qed.

Lemma chain_first_wf (h : gmap addr Command) l n :
  chain_wf h l → chain_first h l n = chain_persistent h l n.
Proof.
  induction l as [|b l IH]; intros Hwf; [done|].
  simpl. rewrite persistent_flag_alt, IH.
  2:{ intros c kc Hc. apply Hwf. by right. }
  unfold the_pflags_at. destruct (h !! b) as [kb|] eqn:Hb; [|done]. simpl.
  assert (pflag.wf (the_pflags kb)) as Hw by (eapply Hwf; [by left|done]).
  destruct (pflag.Lookup (the_pflags kb) n) as [f|] eqn:Hf.
  - by rewrite (first_named_wf _ _ _ Hw Hf).
  - by rewrite (first_named_wf_None _ _ Hw Hf).
Qed.

(** What the merge along a list of nodes leaves at the target for a
    name. *)
Lemma local_flag_merge_all (c : addr) l s n :
  is_Some (heap s !! c) →
  (∀ b, b ∈ l → is_Some (heap s !! b)) →
  local_flag (heap (merge_all c l s)) c n =
    match local_flag (heap s) c n with
    | Some f => Some f
    | None => chain_first (heap s) l n
    end.
Proof.
  revert s. induction l as [|b l IH]; intros s [kc Hc] Hvalid.
  { simpl. by destruct (local_flag (heap s) c n). }
  destruct (Hvalid b) as [kb Hb]; [by left|].
  unfold merge_all. simpl. fold (merge_all c l (merge_node c b s)).
  pose proof (merge_node_extends c b s) as Hext.
  rewrite IH.
  - rewrite (local_flag_merge_node c b kc kb s n Hc Hb).
    rewrite (chain_first_same (heap s) _ l n)
      by (intros p; apply the_pflags_at_merge_node).
    unfold the_pflags_at. rewrite Hb. simpl.
    destruct (local_flag (heap s) c n); [done|].
    by destruct (first_named n (pflag.VisitAll (the_pflags kb))).
  - destruct (Hext c kc Hc) as (? & -> & _). by eexists.
  - intros p Hp. destruct (Hvalid p) as [kp Hkp]; [by right|].
    destruct (Hext p kp Hkp) as (? & -> & _). by eexists.
Qed.

(** X9: on a finite chain of parents whose persistent flag sets hold each
    flag under its own name, the merge returns, and the target's local
    flag set then resolves every name to its own definition if it had one,
    and else to the definition of the nearest node of the chain, the
    target first, whose persistent flag set defines the name; a name
    nobody defines stays undefined. *)
Theorem merge_resolves_every_name fuel (c : addr) l s :
  ancestry (heap s) c l →
  length l ≤ fuel →
  chain_wf (heap s) l →
  ∃ s',
    mergePersistentFlags fuel (Some c) s = (Ok tt, s')
    ∧ ∀ n, local_flag (heap s') c n =
        match local_flag (heap s) c n with
        | Some f => Some f
        | None => chain_persistent (heap s) l n
        end.
Proof.
  intros Hanc Hfuel Hwf.
  destruct (ancestry_inv _ _ _ Hanc) as (k & l' & Hc & ->).
  exists (merge_all c (c :: l') s). unfold mergePersistentFlags.
  rewrite (rmerge_ancestry fuel c k c _ s Hc Hanc Hfuel). split; [done|].
  intros n. rewrite local_flag_merge_all; [|by eexists|by eapply ancestry_valid].
  by rewrite chain_first_wf.
Qed.

Lemma Lookup_no_flags fs n : pflag.HasFlags fs = false → pflag.Lookup fs n = None.
Proof.
  unfold pflag.HasFlags, pflag.Lookup. intros H%bool_decide_eq_false.
  destruct (decide (pflag.formal fs = ∅)) as [->|]; [|done].
  apply lookup_empty.
Qed.

(** One node of the climb of [persistentFlag]. *)
Lemma persistentFlag_step fuel (b : addr) kb n s :
  heap s !! b = Some kb →
  persistentFlag (S fuel) (Some b) n s =
    match pflag.Lookup (the_pflags kb) n with
    | Some f => (Ok (Some f), upd b (with_pflags kb) s)
    | None =>
        match parent kb with
        | Some p => persistentFlag fuel (Some p) n (upd b (with_pflags kb) s)
        | None => (Ok None, upd b (with_pflags kb) s)
        end
    end.
Proof.
  intros Hb. cbn [persistentFlag].
  rewrite (bind_Ok _ _ _ _ _ (HasPersistentFlags_spec b kb s Hb)).
  set (s1 := upd b (with_pflags kb) s).
  assert (heap s1 !! b = Some (with_pflags kb)) as Hb1 by apply lookup_insert_eq.
  assert ((if pflag.HasFlags (the_pflags kb)
           then fs ← PersistentFlags (Some b); mret (pflag.Lookup fs n)
           else mret None) s1 = (Ok (pflag.Lookup (the_pflags kb) n), s1)) as Hl.
  { destruct (pflag.HasFlags (the_pflags kb)) eqn:Hhas.
    - rewrite (bind_Ok _ _ _ _ _ (PersistentFlags_spec b _ s1 Hb1)).
      rewrite with_pflags_idem, the_pflags_with_pflags.
      by rewrite (upd_id b _ s1 Hb1).
    - by rewrite (Lookup_no_flags _ n Hhas). }
  rewrite (bind_Ok _ _ _ _ _ Hl).
  destruct (pflag.Lookup (the_pflags kb) n) as [f|]; [done|].
  rewrite (bind_Ok _ _ _ _ _ (deref_Some b _ s1 Hb1)).
  unfold HasParent. rewrite (grows_parent _ _ (grows_with_pflags kb)).
  destruct (parent kb) as [p|]; [|done].
  by rewrite bool_decide_eq_true_2.
Qed.

Lemma framed_refl c s : framed c s s.
Proof. intros p. split; [done|]. intros k ?. exists k. by auto using grows_refl. Qed.

Lemma framed_trans c s1 s2 s3 : framed c s1 s2 → framed c s2 s3 → framed c s1 s3.
Proof.
  intros H12 H23 p. destruct (H12 p) as [Hn12 Hs12], (H23 p) as [Hn23 Hs23].
  split; [auto|]. intros k Hk.
  destruct (Hs12 k Hk) as (k2 & Hk2 & Hg2 & Hp2 & Hf2).
  destruct (Hs23 k2 Hk2) as (k3 & Hk3 & Hg3 & Hp3 & Hf3).
  exists k3. split_and!; [done|by eapply grows_trans|congruence|].
  intros Hne. rewrite Hf3, Hf2; done.
Qed.

Lemma framed_upd c (b : addr) kb kb' s :
  heap s !! b = Some kb → grows kb kb' → the_pflags kb' = the_pflags kb →
  (b ≠ c → flags kb' = flags kb) →
  framed c s (upd b kb' s).
Proof.
  intros Hb Hg Hp Hf p. simpl. rewrite lookup_insert. case_decide.
  - subst p. split; [by rewrite Hb|]. intros k ?. simplify_eq. eauto.
  - split; [done|]. intros k ?. exists k. by auto using grows_refl.
Qed.

Lemma framed_merge_node (c b : addr) s : framed c s (merge_node c b s).
Proof.
  unfold merge_node. destruct (heap s !! b) as [kb|] eqn:Hb; [|apply framed_refl].
  cbv zeta.
  assert (framed c s (upd b (with_pflags kb) s)) as Hsa.
  { apply (framed_upd c b kb); auto using grows_with_pflags,
      the_pflags_with_pflags, flags_with_pflags. }
  destruct (heap (upd b (with_pflags kb) s) !! c) as [kc|] eqn:Hc; [|done].
  eapply framed_trans; [exact Hsa|].
  apply (framed_upd c c kc); auto using grows_visit_cmd, the_pflags_visit_cmd.
  done.
Qed.

Lemma framed_extends c s s' : framed c s s' → extends s s'.
Proof.
  intros H p k Hk. destruct (H p) as [_ Hs].
  destruct (Hs k Hk) as (k' & ? & ? & _). eauto.
Qed.

Lemma rmerge_framed fuel (c : addr) kc x s :
  heap s !! c = Some kc →
  framed c s (rmerge fuel (Some c) x s).2.
Proof.
  revert x s kc. induction fuel as [|fuel IH]; intros x s kc Hc.
  { apply framed_refl. }
  destruct x as [b|]; [|apply framed_refl].
  destruct (heap s !! b) as [kb|] eqn:Hb.
  - rewrite (rmerge_step fuel c b kc kb s Hc Hb).
    pose proof (framed_merge_node c b s) as Hfr.
    destruct (parent kb) as [p|]; [|done].
    destruct (framed_extends _ _ _ Hfr c kc Hc) as (kc' & Hc' & _).
    eapply framed_trans; [exact Hfr|]. by eapply IH.
  - rewrite (rmerge_dangling fuel _ b s Hb). apply framed_refl.
Qed.

(** X10: whatever its outcome, the merge for a target calls no
    application code, allocates and frees no node, and changes no node's
    name, run action, children, parent or commander; the persistent flag
    set of every node keeps its content (a missing one may be created
    empty), and the local flag set of every node but the target is left
    exactly as it was. *)
Theorem merge_frame fuel (c : addr) kc s :
  heap s !! c = Some kc →
  let s' := (mergePersistentFlags fuel (Some c) s).2 in
  trace s' = trace s
  ∧ ∀ p : addr,
      (heap s !! p = None → heap s' !! p = None)
      ∧ ∀ k, heap s !! p = Some k →
          ∃ k', heap s' !! p = Some k'
                ∧ Name k' = Name k ∧ Run k' = Run k
                ∧ commands k' = commands k ∧ parent k' = parent k
                ∧ cmdr k' = cmdr k
                ∧ the_pflags k' = the_pflags k
                ∧ (p ≠ c → flags k' = flags k).
Proof.
  intros Hc s'. split; [apply quiet_rmerge|].
  intros p. destruct (rmerge_framed fuel c kc (Some c) s Hc p) as [Hn Hs].
  split; [done|]. intros k Hk.
  destruct (Hs k Hk) as (k' & Hk' & Hg & Hp & Hf).
  exists k'. split_and!; [done|by apply grows_Name|by destruct Hg..|done|done].
Qed.

(** The climb of [persistentFlag] on a finite chain of parents: it returns
    the definition of the nearest node of the chain that defines the name,
    and changes no flag set's content. *)
Lemma persistentFlag_ancestry fuel (c : addr) l n s :
  ancestry (heap s) c l →
  length l ≤ fuel →
  ∃ s',
    persistentFlag fuel (Some c) n s = (Ok (chain_persistent (heap s) l n), s')
    ∧ framed c s s'
    ∧ ∀ p, (flags <$> heap s' !! p) = (flags <$> heap s !! p).
Proof.
  revert c s fuel. induction l as [|b l IH]; intros c s fuel Hanc Hfuel.
  { inversion Hanc. }
  destruct fuel as [|fuel]; [simpl in Hfuel; lia|].
  apply ancestry_cons_inv in Hanc as (-> & k & Hc & Hrest).
  rewrite (persistentFlag_step fuel c k n s Hc).
  set (s1 := upd c (with_pflags k) s).
  assert (framed c s s1) as Hfr.
  { apply (framed_upd c c k); auto using grows_with_pflags,
      the_pflags_with_pflags, flags_with_pflags. }
  assert (∀ p, (flags <$> heap s1 !! p) = (flags <$> heap s !! p)) as Hfl.
  { intros p. simpl. rewrite lookup_insert. case_decide; [|done].
    subst p. rewrite Hc. simpl. by rewrite flags_with_pflags. }
  simpl. rewrite persistent_flag_alt. unfold the_pflags_at. rewrite Hc. simpl.
  destruct (pflag.Lookup (the_pflags k) n) as [f|]; [by eauto|].
  destruct Hrest as [[-> Hp]|(p & Hp & Hanc)]; rewrite Hp; [by eauto|].
  apply (ancestry_extends _ _ _ _ (framed_extends _ _ _ Hfr)) in Hanc.
  destruct (IH p s1 fuel Hanc) as (s' & Hrun & Hfr' & Hfl');
    [simpl in Hfuel; lia|].
  exists s'. split_and!.
  - rewrite Hrun. do 2 f_equal. apply chain_persistent_same.
    intros q. apply (the_pflags_at_upd c k); [done|].
    apply the_pflags_with_pflags.
  - intros q. destruct (Hfr q) as [Hn1 Hs1], (Hfr' q) as [Hn2 Hs2].
    split; [auto|]. intros kq Hkq.
    destruct (Hs1 kq Hkq) as (k1 & Hk1 & Hg1 & Hp1 & _).
    destruct (Hs2 k1 Hk1) as (k2 & Hk2 & Hg2 & Hp2 & _).
    exists k2. split_and!; [done|by eapply grows_trans|congruence|].
    intros _. specialize (Hfl' q). specialize (Hfl q).
    rewrite Hk2, Hk1 in Hfl'. rewrite Hk1, Hkq in Hfl. simpl in *. congruence.
  - intros q. by rewrite Hfl', Hfl.
Qed.

(** [Flag] on a finite chain of parents. *)
Lemma Flag_ancestry fuel (c : addr) l n s :
  ancestry (heap s) c l →
  length l ≤ fuel →
  ∃ s',
    Flag fuel (Some c) n s
      = (Ok (match local_flag (heap s) c n with
             | Some f => Some f
             | None => chain_persistent (heap s) l n
             end), s')
    ∧ (∀ p m, local_flag (heap s') p m = local_flag (heap s) p m)
    ∧ (∀ p, the_pflags_at (heap s') p = the_pflags_at (heap s) p).
Proof.
  intros Hanc Hfuel.
  destruct (ancestry_inv _ _ _ Hanc) as (k & l' & Hc & ->).
  unfold Flag. rewrite (bind_Ok _ _ _ _ _ (Flags_spec c k s Hc)).
  set (s0 := upd c (with_flags k) s).
  assert (∀ p m, local_flag (heap s0) p m = local_flag (heap s) p m) as Hloc.
  { intros p m. unfold local_flag. simpl. rewrite lookup_insert.
    case_decide; [|done]. subst p. rewrite Hc. simpl.
    apply local_lookup_with_flags. }
  assert (∀ p, the_pflags_at (heap s0) p = the_pflags_at (heap s) p) as Hpf.
  { intros p. apply (the_pflags_at_upd c k); [done|apply the_pflags_with_flags]. }
  rewrite local_lookup_the_flags. unfold local_flag at 1. rewrite Hc. simpl.
  destruct (local_lookup k n) as [f|]; [by eauto|].
  assert (extends s s0) as Hext by eauto using extends_upd, grows_with_flags.
  apply (ancestry_extends _ _ _ _ Hext) in Hanc.
  destruct (persistentFlag_ancestry fuel c (c :: l') n s0 Hanc Hfuel)
    as (s' & Hrun & Hfr & Hfl).
  exists s'. split_and!.
  - rewrite Hrun. do 2 f_equal.
    exact (chain_persistent_same _ _ (c :: l') n Hpf).
  - intros p m. rewrite <- Hloc. unfold local_flag, local_lookup.
    specialize (Hfl p).
    destruct (heap s' !! p) as [k1|], (heap s0 !! p) as [k0|];
      simpl in *; try done.
    injection Hfl as Hfl. by rewrite Hfl.
  - intros p. rewrite <- Hpf. unfold the_pflags_at.
    destruct (Hfr p) as [Hn Hs]. destruct (heap s0 !! p) as [kp|] eqn:Hkp.
    + destruct (Hs kp eq_refl) as (kp' & -> & _ & Hp' & _). simpl.
      by rewrite Hp'.
    + by rewrite Hn.
Qed.

(** X11: on a finite chain of parents, [Flag] returns the target's local
    flag of that name if it has one, and else the persistent flag of that
    name of the nearest node of the chain, the target first, that defines
    it; it returns nil when nobody defines the name.  The lookup copies
    nothing: it leaves every flag set with the content it had. *)
Theorem Flag_nearest_definition fuel (c : addr) l n s :
  ancestry (heap s) c l →
  length l ≤ fuel →
  ∃ s',
    Flag fuel (Some c) n s
      = (Ok (match local_flag (heap s) c n with
             | Some f => Some f
             | None => chain_persistent (heap s) l n
             end), s')
    ∧ (∀ p m, local_flag (heap s') p m = local_flag (heap s) p m)
    ∧ (∀ p, the_pflags_at (heap s') p = the_pflags_at (heap s) p).
Proof. apply Flag_ancestry. Qed.

(** X12: on a finite chain of parents whose persistent flag sets hold each
    flag under its own name, what [Flag] returns for a name before the
    merge is what the target's local flag set holds under that name after
    the merge. *)
Theorem Flag_agrees_with_merge fuel (c : addr) l s :
  ancestry (heap s) c l →
  length l ≤ fuel →
  chain_wf (heap s) l →
  ∃ s',
    mergePersistentFlags fuel (Some c) s = (Ok tt, s')
    ∧ ∀ n, (Flag fuel (Some c) n s).1 = Ok (local_flag (heap s') c n).
Proof.
  intros Hanc Hfuel Hwf.
  destruct (ancestry_inv _ _ _ Hanc) as (k & l' & Hc & ->).
  exists (merge_all c (c :: l') s). unfold mergePersistentFlags.
  rewrite (rmerge_ancestry fuel c k c _ s Hc Hanc Hfuel). split; [done|].
  intros n.
  rewrite (local_flag_merge_all c (c :: l') s n (ex_intro _ k Hc)
             (ancestry_valid _ _ _ Hanc)).
  rewrite chain_first_wf by done.
  by destruct (Flag_ancestry fuel c (c :: l') n s Hanc Hfuel)
    as (s' & -> & _).
Qed.

(** Decides [pflag.wf] on a flag set written out as a literal. *)
Ltac solve_wf :=
  match goal with
  | |- pflag.wf ?fs =>
      change (map_Forall (λ k fl, pflag.Name fl = k) (pflag.formal fs));
      apply (bool_decide_unpack _); vm_compute; exact I
  end.

Lemma generations_own_wf : chain_wf (heap generations_own) [3; 2; 1]%positive.
Proof.
  intros b kb _ H. unfold generations_own in H. simpl in H.
  lookup_cases H; solve_wf.
Qed.

Ltac solve_generations :=
  eapply ancestry_step; [by vm_compute | reflexivity |];
  eapply ancestry_step; [by vm_compute | reflexivity |];
  eapply ancestry_root; [by vm_compute | reflexivity].

Lemma merge_resolves_every_name_witness :
  ∃ s',
    mergePersistentFlags 3 (Some 3%positive) generations_own = (Ok tt, s')
    ∧ ∀ n, local_flag (heap s') 3%positive n =
        match local_flag (heap generations_own) 3%positive n with
        | Some f => Some f
        | None => chain_persistent (heap generations_own) [3; 2; 1]%positive n
        end.
Proof.
  apply (merge_resolves_every_name 3 3%positive [3; 2; 1]%positive generations_own).
  - solve_generations.
  - simpl. lia.
  - exact generations_own_wf.
Defined.

Lemma merge_frame_witness :
  let s' := (mergePersistentFlags 3 (Some 3%positive) generations_own).2 in
  trace s' = trace generations_own
  ∧ ∀ p : addr,
      (heap generations_own !! p = None → heap s' !! p = None)
      ∧ ∀ k, heap generations_own !! p = Some k →
          ∃ k', heap s' !! p = Some k'
                ∧ Name k' = Name k ∧ Run k' = Run k
                ∧ commands k' = commands k ∧ parent k' = parent k
                ∧ cmdr k' = cmdr k
                ∧ the_pflags k' = the_pflags k
                ∧ (p ≠ 3%positive → flags k' = flags k).
Proof.
  apply (merge_frame 3 3%positive
           (persistent (flag_x 30 "of the child") child_node) generations_own).
  by vm_compute.
Defined.

Lemma Flag_nearest_definition_witness :
  (∃ s',
     Flag 3 (Some 3%positive) "x" generations = 
       (Ok (match local_flag (heap generations) 3%positive "x" with
            | Some f => Some f
            | None => chain_persistent (heap generations) [3; 2; 1]%positive "x"
            end), s')
     ∧ (∀ p m, local_flag (heap s') p m = local_flag (heap generations) p m)
     ∧ (∀ p, the_pflags_at (heap s') p = the_pflags_at (heap generations) p))
  ∧ (Flag 3 (Some 3%positive) "x" generations).1
    = Ok (Some (flag_x 20 "of the parent"))
  ∧ (Flag 3 (Some 3%positive) "y" generations).1 = Ok None.
Proof.
  split; [|split; by vm_compute].
  apply (Flag_nearest_definition 3 3%positive [3; 2; 1]%positive "x" generations).
  - solve_generations.
  - simpl. lia.
Defined.

Lemma Flag_agrees_with_merge_witness :
  ∃ s',
    mergePersistentFlags 3 (Some 3%positive) generations_own = (Ok tt, s')
    ∧ ∀ n, (Flag 3 (Some 3%positive) n generations_own).1
           = Ok (local_flag (heap s') 3%positive n).
Proof.
  apply (Flag_agrees_with_merge 3 3%positive [3; 2; 1]%positive generations_own).
  - solve_generations.
  - simpl. lia.
  - exact generations_own_wf.
Defined.

(** * Names and use lines *)

Lemma string_app_assoc (a b c : string) : (a +:+ b) +:+ c = a +:+ b +:+ c.
Proof.
  induction a as [|x a IH]; [done|].
  change (String x ((a +:+ b) +:+ c) = String x (a +:+ b +:+ c)).
  by rewrite IH.
Qed.

Lemma string_app_nil_r (a : string) : a +:+ "" = a.
Proof.
  induction a as [|x a IH]; [done|].
  change (String x (a +:+ "") = String x a). by rewrite IH.
Qed.

Lemma index_space_cons b s :
  String.index 0 " " (String b s) =
    if ascii_dec " " b then Some 0
    else match String.index 0 " " s with
         | Some n => Some (S n)
         | None => None
         end.
Proof.
  cbn [String.index String.prefix].
  destruct (ascii_dec " " b); [by destruct s|done].
Qed.

(** Where [strings.Index(s, " ")] finds a space, [s[:i]] has none and is
    followed in [s] by that space. *)
Lemma index_space_Some s i :
  String.index 0 " " s = Some i →
  String.index 0 " " (String.substring 0 i s) = None
  ∧ ∃ rest, s = String.substring 0 i s +:+ " " +:+ rest.
Proof.
  revert i. induction s as [|b s IH]; intros i; [done|].
  rewrite index_space_cons. destruct (ascii_dec " " b) as [Hb|Hb].
  - intros [= <-]. split; [done|]. exists s. by rewrite <- Hb.
  - destruct (String.index 0 " " s) as [j|] eqn:Hj; [|done].
    intros [= <-]. destruct (IH j eq_refl) as [Hnone [rest Hrest]].
    cbn [String.substring]. split.
    + rewrite index_space_cons. destruct (ascii_dec " " b); [done|].
      by rewrite Hnone.
    + exists rest. change (String b s = String b (String.substring 0 j s +:+ " " +:+ rest)).
      by rewrite <- Hrest.
Qed.

Lemma Name_first_word_aux k :
  name k = "" →
  String.index 0 " " (Name k) = None
  ∧ (Use k = Name k ∨ ∃ rest, Use k = Name k +:+ " " +:+ rest).
Proof.
  intros Hname. unfold Name. rewrite Hname.
  case_decide as Hd; [done|].
  destruct (String.index 0 " " (Use k)) as [i|] eqn:Hi.
  - destruct (index_space_Some _ _ Hi) as [Hnone Hrest]. auto.
  - auto.
Qed.

(** X13: for a command without explicit name, [Name] is the first word of
    the use line: it contains no space, and the use line is the name
    itself or the name, a space, and more. *)
Theorem Name_first_word k :
  name k = "" →
  String.index 0 " " (Name k) = None
  ∧ (Use k = Name k ∨ ∃ rest, Use k = Name k +:+ " " +:+ rest).
Proof. apply Name_first_word_aux. Qed.

Lemma Name_prefix_of_Use k :
  name k = "" → ∃ rest, Use k = Name k +:+ rest.
Proof.
  intros Hname. destruct (Name_first_word_aux k Hname) as [_ [Heq|[rest Heq]]].
  - exists "". by rewrite string_app_nil_r.
  - by exists (" " +:+ rest).
Qed.

Lemma concat_snoc (sep : string) xs a :
  xs ≠ [] →
  String.concat sep (xs ++ [a]) = String.concat sep xs +:+ sep +:+ a.
Proof.
  induction xs as [|x xs IH]; [done|]. intros _.
  destruct xs as [|y xs]; [done|].
  change (x +:+ sep +:+ String.concat sep ((y :: xs) ++ [a])
          = (x +:+ sep +:+ String.concat sep (y :: xs)) +:+ sep +:+ a).
  rewrite IH by done. by rewrite !string_app_assoc.
Qed.

(** The path of a node on a finite chain of parents, by the names on the
    chain. *)
Lemma CommandPath_concat (h : gmap addr Command) (c : addr) l fuel :
  ancestry h c l →
  length l ≤ fuel →
  CommandPath fuel h (Some c)
    = Ok (String.concat " " (map (name_of h) (rev l))).
Proof.
  intros Hanc Hfuel. unfold CommandPath.
  destruct (ancestry_inv h c l Hanc) as (k & l' & Hc & ->).
  rewrite (load_Some h c k Hc). unfold mbind, outcome_bind.
  rewrite (CommandPath_loop_ancestry h c (c :: l') fuel) by done.
  rewrite prepend_concat. simpl. rewrite map_app, map_rev. simpl.
  do 3 f_equal. unfold name_of. by rewrite Hc.
Qed.

(** The path of a node with a parent is the path of the parent, a space,
    and the name of the node. *)
Lemma CommandPath_child (h : gmap addr Command) (c p : addr) l k fuel :
  ancestry h c (c :: p :: l) →
  length (c :: p :: l) ≤ fuel →
  h !! c = Some k →
  CommandPath fuel h (Some c)
    = Ok (String.concat " " (map (name_of h) (rev (p :: l))) +:+ " " +:+ Name k).
Proof.
  intros Hanc Hfuel Hc. rewrite (CommandPath_concat h c _ fuel Hanc Hfuel).
  f_equal. change (rev (c :: p :: l)) with (rev (p :: l) ++ [c]).
  rewrite map_app. simpl map at 2. rewrite concat_snoc.
  - unfold name_of at 2. by rewrite Hc.
  - simpl. rewrite map_app. by destruct (map (name_of h) (rev l)).
Qed.

(** X14: for a node without explicit name on a finite chain of parents,
    [UseLine] returns the command path of the node followed by what the
    use line of the node has after its first word. *)
Theorem UseLine_extends_CommandPath (h : gmap addr Command) (c : addr) l k fuel :
  ancestry h c l →
  length l ≤ fuel →
  h !! c = Some k →
  name k = "" →
  ∃ path rest,
    CommandPath fuel h (Some c) = Ok path
    ∧ Use k = Name k +:+ rest
    ∧ UseLine fuel h (Some c) = Ok (path +:+ rest).
Proof.
  intros Hanc Hfuel Hc Hname.
  destruct (Name_prefix_of_Use k Hname) as [rest Hrest].
  unfold UseLine. rewrite (load_Some h c k Hc). unfold mbind at 1, outcome_bind at 1.
  destruct l as [|c' l]; [inversion Hanc|].
  pose proof Hanc as Hanc'.
  apply ancestry_cons_inv in Hanc' as (-> & k' & Hc' & Hcase). simplify_eq.
  destruct Hcase as [[-> Hp]|(p & Hp & Hancp)].
  - exists (Name k), rest. rewrite (CommandPath_concat h c [c] fuel Hanc Hfuel).
    unfold HasParent. rewrite Hp. simpl. unfold name_of. rewrite Hc.
    split_and!; [done..|]. by rewrite Hrest at 1.
  - destruct (ancestry_inv h p l Hancp) as (kp & l' & Hkp & ->).
    exists (String.concat " " (map (name_of h) (rev (p :: l'))) +:+ " " +:+ Name k),
      rest.
    rewrite (CommandPath_child h c p l' k fuel Hanc Hfuel Hc).
    split_and!; [done..|].
    unfold HasParent. rewrite Hp. rewrite bool_decide_eq_true_2 by done.
    rewrite (CommandPath_concat h p (p :: l') fuel Hancp)
      by (simpl in *; lia).
    unfold mbind, outcome_bind. f_equal.
    rewrite Hrest at 1. by rewrite !string_app_assoc.
Qed.

Lemma Name_first_word_witness :
  String.index 0 " " (Name (new_Command "echo [string to echo]" None)) = None
  ∧ (Use (new_Command "echo [string to echo]" None)
       = Name (new_Command "echo [string to echo]" None)
     ∨ ∃ rest, Use (new_Command "echo [string to echo]" None)
               = Name (new_Command "echo [string to echo]" None) +:+ " " +:+ rest).
Proof. apply (Name_first_word (new_Command "echo [string to echo]" None)). reflexivity. Defined.

Lemma UseLine_extends_CommandPath_witness :
  (∃ path rest,
     CommandPath 2 twins (Some 3%positive) = Ok path
     ∧ Use (set_parent (Some 1%positive) (new_Command "two x" (Some 1)))
       = Name (set_parent (Some 1%positive) (new_Command "two x" (Some 1))) +:+ rest
     ∧ UseLine 2 twins (Some 3%positive) = Ok (path +:+ rest))
  ∧ UseLine 2 twins (Some 3%positive) = Ok "app two x".
Proof.
  split; [|by vm_compute].
  apply (UseLine_extends_CommandPath twins 3%positive [3; 1]%positive
           (set_parent (Some 1%positive) (new_Command "two x" (Some 1))) 2).
  - eapply ancestry_step; [by vm_compute | reflexivity |].
    eapply ancestry_root; [by vm_compute | reflexivity].
  - simpl. lia.
  - by vm_compute.
  - reflexivity.
Defined.

(** * More on tree construction *)

(** The state after [c.AddCommand(x)] for a node [x] other than [c]. *)
Lemma AddCommand_one (c x : addr) kc kx s :
  x ≠ c →
  heap s !! c = Some kc →
  heap s !! x = Some kx →
  AddCommand (Some c) [Some x] s =
    (Ok tt, upd c (set_commands (commands kc ++ [Some x]) kc)
              (upd x (set_cmdr (cmdr kc) (set_parent (Some c) kx)) s)).
Proof. intros Hne Hc Hx. by rewrite (AddCommand_cons c kc x kx [] s Hne Hc Hx). Qed.

(** X15: after [c.AddCommand(x)], for a node [x] whose name no child of
    [c] had, [Find] on [c] with the name of [x] and at least one more
    argument continues at [x] with the arguments after the name. *)
Theorem AddCommand_then_Find (c x : addr) kc kx s :
  heap s !! c = Some kc →
  heap s !! x = Some kx →
  x ≠ c →
  Forall (other_name (heap s) (Name kx)) (commands kc) →
  ∃ s',
    AddCommand (Some c) [Some x] s = (Ok tt, s')
    ∧ ∀ arg1 rest,
        Find (heap s') (Some c) (Name kx :: arg1 :: rest)
        = Find (heap s') (Some x) (arg1 :: rest).
Proof.
  intros Hc Hx Hne Hold. eexists. split; [by apply AddCommand_one|].
  intros arg1 rest.
  set (kx' := set_cmdr (cmdr kc) (set_parent (Some c) kx)).
  set (kc' := set_commands (commands kc ++ [Some x]) kc).
  set (s' := upd c kc' (upd x kx' s)).
  assert (heap s' !! c = Some kc') as Hc' by apply lookup_insert_eq.
  assert (heap s' !! x = Some kx') as Hx'.
  { unfold s'. simpl. rewrite lookup_insert_ne by done. apply lookup_insert_eq. }
  rewrite (Find_unfold (heap s') c kc' _ Hc').
  assert (HasSubCommands kc' = true) as ->.
  { unfold HasSubCommands. apply bool_decide_eq_true. simpl.
    rewrite length_app. simpl. lia. }
  change (commands kc') with (commands kc ++ [Some x]).
  rewrite (scan_first_match (heap s') _ (Name kx) (commands kc) (Some x) kx' []);
    [done| |by apply load_Some|done].
  eapply Forall_impl; [exact Hold|]. intros p (kp & Hl & Hn).
  destruct (load_Ok_inv _ _ _ Hl) as (a & -> & Ha).
  destruct (decide (a = c)) as [->|Hac].
  - exists kc'. split; [by apply load_Some|]. by simplify_eq.
  - assert (a ≠ x) by (intros ->; by simplify_eq).
    exists kp. split; [|done]. apply load_Some. unfold s'. simpl.
    by rewrite !lookup_insert_ne.
Qed.

Lemma ancestry_same_parents (h h' : gmap addr Command) (c : addr) l :
  (∀ a k, a ∈ l → h !! a = Some k →
     ∃ k', h' !! a = Some k' ∧ parent k' = parent k) →
  ancestry h c l → ancestry h' c l.
Proof.
  intros Hsame Hanc.
  induction Hanc as [a k Ha Hp | a k p l Ha Hp _ IH].
  - destruct (Hsame a k) as (k' & Ha' & Hp'); [by left|done|].
    eapply ancestry_root; [exact Ha'|by rewrite Hp'].
  - destruct (Hsame a k) as (k' & Ha' & Hp'); [by left|done|].
    eapply ancestry_step; [exact Ha'|by rewrite Hp'|].
    apply IH. intros b kb Hb. apply Hsame. by right.
Qed.

(** X16: after [c.AddCommand(x)], for a node [c] with a finite chain of
    parents that [x] is not on, the command path of [x] is the command
    path of [c], a space, and the name of [x]. *)
Theorem AddCommand_then_CommandPath (c x : addr) l kx fuel s :
  ancestry (heap s) c l →
  x ∉ l →
  heap s !! x = Some kx →
  length l ≤ fuel →
  ∃ s' path,
    AddCommand (Some c) [Some x] s = (Ok tt, s')
    ∧ CommandPath fuel (heap s) (Some c) = Ok path
    ∧ CommandPath (S fuel) (heap s') (Some x) = Ok (path +:+ " " +:+ Name kx).
Proof.
  intros Hanc Hx Hkx Hfuel.
  destruct (ancestry_inv _ _ _ Hanc) as (kc & l' & Hc & ->).
  assert (x ≠ c) as Hne by (intros ->; apply Hx; by left).
  set (kx' := set_cmdr (cmdr kc) (set_parent (Some c) kx)).
  set (kc' := set_commands (commands kc ++ [Some x]) kc).
  set (s' := upd c kc' (upd x kx' s)).
  exists s', (String.concat " " (map (name_of (heap s)) (rev (c :: l')))).
  split; [by apply AddCommand_one|].
  split; [by apply CommandPath_concat|].
  assert (heap s' !! x = Some kx') as Hx'.
  { unfold s'. simpl. rewrite lookup_insert_ne by done. apply lookup_insert_eq. }
  assert (∀ a k, a ∈ c :: l' → heap s !! a = Some k →
            ∃ k', heap s' !! a = Some k' ∧ parent k' = parent k ∧ Name k' = Name k)
    as Hsame.
  { intros a k Ha Hk. destruct (decide (a = c)) as [->|Hac].
    - exists kc'. split; [apply lookup_insert_eq|]. by simplify_eq.
    - assert (a ≠ x) by (intros ->; done).
      exists k. unfold s'. simpl. by rewrite !lookup_insert_ne. }
  assert (ancestry (heap s') c (c :: l')) as Hanc'.
  { eapply ancestry_same_parents; [|exact Hanc].
    intros a k Ha Hk. destruct (Hsame a k Ha Hk) as (k' & ? & ? & _). eauto. }
  assert (ancestry (heap s') x (x :: c :: l')) as Hancx
    by (eapply ancestry_step; [exact Hx'|done|done]).
  rewrite (CommandPath_child (heap s') x c l' kx' (S fuel) Hancx)
    by (simpl in *; lia || done).
  do 2 f_equal. f_equal. apply map_ext_in. intros a Ha%in_rev%list_elem_of_In.
  unfold name_of. destruct (heap s !! a) as [k|] eqn:Hk.
  - by destruct (Hsame a k Ha Hk) as (k' & -> & _ & ->).
  - by destruct (ancestry_valid _ _ _ Hanc a Ha) as [? ?]; simplify_eq.
Qed.

Lemma AddCommand_then_Find_witness :
  ∃ s',
    AddCommand (Some 1%positive) [Some 2%positive] three_nodes = (Ok tt, s')
    ∧ ∀ arg1 rest,
        Find (heap s') (Some 1%positive)
          (Name (new_Command "remote [name]" (Some 0)) :: arg1 :: rest)
        = Find (heap s') (Some 2%positive) (arg1 :: rest).
Proof.
  apply (AddCommand_then_Find 1%positive 2%positive
           (set_cmdr (Some 1%positive) (new_Command "app" None))
           (new_Command "remote [name]" (Some 0)) three_nodes).
  - by vm_compute.
  - by vm_compute.
  - done.
  - apply Forall_nil_2.
Defined.

Lemma AddCommand_then_CommandPath_witness :
  (∃ s' path,
     AddCommand (Some 1%positive) [Some 3%positive] three_nodes = (Ok tt, s')
     ∧ CommandPath 1 (heap three_nodes) (Some 1%positive) = Ok path
     ∧ CommandPath 2 (heap s') (Some 3%positive)
       = Ok (path +:+ " " +:+ Name (new_Command "add url" (Some 1))))
  ∧ CommandPath 2
      (heap (AddCommand (Some 1%positive) [Some 3%positive] three_nodes).2)
      (Some 3%positive) = Ok "app add".
Proof.
  split; [|by vm_compute].
  apply (AddCommand_then_CommandPath 1%positive 3%positive [1%positive]
           (new_Command "add url" (Some 1)) 1 three_nodes).
  - eapply ancestry_root; [by vm_compute | reflexivity].
  - by intros ?%list_elem_of_singleton.
  - by vm_compute.
  - simpl. lia.
Defined.

(** * Resetting children and flags, and the lazy accessors *)

(** X17: [ResetCommands] takes the children out of resolution and leaves
    everything else: afterwards [Find] on the node resolves every
    argument list at the node itself (or to nothing if it is not
    runnable), while every other node, the former children with their
    parent pointer among them, is what it was. *)
Theorem ResetCommands_stops_resolution (c : addr) k s :
  heap s !! c = Some k →
  ∃ s',
    ResetCommands (Some c) s = (Ok tt, s')
    ∧ (∀ args, Find (heap s') (Some c) args =
         if Runnable k then Ok (Some c, args, None) else Ok (None, [], None))
    ∧ (∀ p : addr, p ≠ c → heap s' !! p = heap s !! p).
Proof.
  intros Hc. exists (upd c (set_commands [] k) s). split_and!.
  - by apply modify_Some.
  - intros args.
    rewrite (Find_unfold _ c (set_commands [] k) args) by apply lookup_insert_eq.
    by destruct args as [|? [|? ?]].
  - intros p Hp. simpl. by rewrite lookup_insert_ne.
Qed.

Lemma ResetCommands_stops_resolution_witness :
  ∃ s',
    ResetCommands (Some 1%positive) {| heap := runnable_twins; trace := [] |}
      = (Ok tt, s')
    ∧ (∀ args, Find (heap s') (Some 1%positive) args =
         if Runnable (set_commands [Some 2; Some 3; Some 4]%positive
                        (new_Command "app" (Some 9)))
         then Ok (Some 1%positive, args, None) else Ok (None, [], None))
    ∧ (∀ p : addr, p ≠ 1%positive → heap s' !! p = runnable_twins !! p).
Proof.
  apply (ResetCommands_stops_resolution 1%positive
           (set_commands [Some 2; Some 3; Some 4]%positive (new_Command "app" (Some 9)))
           {| heap := runnable_twins; trace := [] |}).
  by vm_compute.
Defined.

Lemma with_flags_with_pflags k :
  with_flags (with_pflags k) = with_pflags (with_flags k).
Proof.
  destruct k as [n u sh lo fl pf r cs pa cm buf].
  unfold with_flags, with_pflags, ensure_buf.
  destruct fl, pf, buf; simpl; repeat case_decide; simpl; try done.
Qed.

Lemma the_flags_with_pflags k : the_flags (with_pflags k) = the_flags k.
Proof.
  unfold the_flags.
  by rewrite flags_with_pflags, (grows_Name _ _ (grows_with_pflags k)).
Qed.

(** X18: the two accessors are lazy and commute: [Flags] then
    [PersistentFlags] on a node leaves the state that [PersistentFlags]
    then [Flags] leaves, each call returns the set the node had or a new
    empty one named after the node, and on that state further calls of
    either return the same sets and change nothing. *)
Theorem accessors_commute (c : addr) k s :
  heap s !! c = Some k →
  ∃ s',
    (Flags (Some c);; PersistentFlags (Some c)) s = (Ok (the_pflags k), s')
    ∧ (PersistentFlags (Some c);; Flags (Some c)) s = (Ok (the_flags k), s')
    ∧ Flags (Some c) s' = (Ok (the_flags k), s')
    ∧ PersistentFlags (Some c) s' = (Ok (the_pflags k), s').
Proof.
  intros Hc. exists (upd c (with_pflags (with_flags k)) s).
  assert (∀ k0 k1, heap (upd c k0 s) !! c = Some k1 → k1 = k0) as Hlook.
  { intros k0 k1. simpl. rewrite lookup_insert_eq. congruence. }
  split_and!.
  - rewrite (bind_Ok _ _ _ _ _ (Flags_spec c k s Hc)).
    rewrite (PersistentFlags_spec c (with_flags k)) by apply lookup_insert_eq.
    by rewrite upd_upd, the_pflags_with_flags.
  - rewrite (bind_Ok _ _ _ _ _ (PersistentFlags_spec c k s Hc)).
    rewrite (Flags_spec c (with_pflags k)) by apply lookup_insert_eq.
    by rewrite upd_upd, with_flags_with_pflags, the_flags_with_pflags.
  - rewrite (Flags_spec c (with_pflags (with_flags k))) by apply lookup_insert_eq.
    by rewrite upd_upd, with_flags_with_pflags, with_flags_idem,
      the_flags_with_pflags, the_flags_with_flags.
  - rewrite (PersistentFlags_spec c (with_pflags (with_flags k)))
      by apply lookup_insert_eq.
    by rewrite upd_upd, with_pflags_idem, the_pflags_with_pflags,
      the_pflags_with_flags.
Qed.

Lemma accessors_commute_witness :
  let s := {| heap := runnable_root; trace := [] |} in
  ∃ s',
    (Flags (Some 1%positive);; PersistentFlags (Some 1%positive)) s
      = (Ok (the_pflags (new_Command "app [flags]" (Some 0))), s')
    ∧ (PersistentFlags (Some 1%positive);; Flags (Some 1%positive)) s
      = (Ok (the_flags (new_Command "app [flags]" (Some 0))), s')
    ∧ Flags (Some 1%positive) s'
      = (Ok (the_flags (new_Command "app [flags]" (Some 0))), s')
    ∧ PersistentFlags (Some 1%positive) s'
      = (Ok (the_pflags (new_Command "app [flags]" (Some 0))), s').
Proof.
  intros s.
  apply (accessors_commute 1%positive (new_Command "app [flags]" (Some 0)) s).
  by vm_compute.
Defined.

Lemma ResetFlags_spec (c : addr) k s :
  heap s !! c = Some k →
  ResetFlags (Some c) s = (Ok tt, upd c (reset_flags k) s).
Proof.
  intros Hc. unfold ResetFlags.
  rewrite (bind_Ok _ _ _ _ _ (modify_Some c k _ s Hc)).
  erewrite (bind_Ok _ _ _ _ _ (deref_Some c _ _ (lookup_insert_eq _ _ _))).
  erewrite (bind_Ok _ _ _ _ _ (modify_Some c _ _ _ (lookup_insert_eq _ _ _))).
  rewrite upd_upd.
  erewrite (bind_Ok _ _ _ _ _ (deref_Some c _ _ (lookup_insert_eq _ _ _))).
  erewrite (modify_Some c _ _ _ (lookup_insert_eq _ _ _)).
  by rewrite upd_upd.
Qed.

Lemma ancestry_functional (h : gmap addr Command) (c : addr) l1 l2 :
  ancestry h c l1 → ancestry h c l2 → l1 = l2.
Proof.
  intros H1. revert l2.
  induction H1 as [a k Ha Hp | a k p l Ha Hp _ IH]; intros l2 H2;
    inversion H2; simplify_eq; try done.
  f_equal. by apply IH.
Qed.

Lemma ancestry_elem (h : gmap addr Command) (c a : addr) l :
  ancestry h c l → a ∈ l → ∃ l1 l2, l = l1 ++ l2 ∧ ancestry h a l2.
Proof.
  induction 1 as [b k Hb Hp | b k p l Hb Hp Hanc IH]; intros Hin.
  - apply list_elem_of_singleton in Hin as ->.
    exists [], [b]. split; [done|]. by eapply ancestry_root.
  - apply elem_of_cons in Hin as [->|Hin].
    + exists [], (b :: l). split; [done|]. by eapply ancestry_step.
    + destruct (IH Hin) as (l1 & l2 & -> & ?). by exists (b :: l1), l2.
Qed.

(** A finite chain of parents does not come back to its first node. *)
Lemma ancestry_head_fresh (h : gmap addr Command) (c : addr) l :
  ancestry h c (c :: l) → c ∉ l.
Proof.
  intros Hanc Hin.
  pose proof Hanc as Hanc'.
  apply ancestry_cons_inv in Hanc' as (_ & k & Hc & [[-> _]|(p & Hp & Hp')]).
  { by apply elem_of_nil in Hin. }
  destruct (ancestry_elem h p c l Hp' Hin) as (l1 & l2 & -> & Hc2).
  pose proof (ancestry_functional h c _ _ Hanc Hc2) as Heq.
  apply (f_equal length) in Heq. simpl in Heq. rewrite length_app in Heq. lia.
Qed.

Lemma chain_first_same_on (h h' : gmap addr Command) l n :
  (∀ p, p ∈ l → the_pflags_at h' p = the_pflags_at h p) →
  chain_first h' l n = chain_first h l n.
Proof.
  induction l as [|b l IH]; intros Hsame; [done|].
  simpl. rewrite Hsame by (by left). rewrite IH; [done|].
  intros p Hp. apply Hsame. by right.
Qed.

(** X19: [ResetFlags] forgets the local and the own persistent flags of a
    node and nothing else: on a finite chain of parents whose persistent
    flag sets hold each flag under its own name, a merge after
    [ResetFlags] returns, and the node's local flag set then resolves a
    name exactly to the definition of its nearest strict ancestor that
    defines it. *)
Theorem ResetFlags_then_merge fuel (c : addr) l s :
  ancestry (heap s) c (c :: l) →
  length (c :: l) ≤ fuel →
  chain_wf (heap s) l →
  ∃ s1 s2,
    ResetFlags (Some c) s = (Ok tt, s1)
    ∧ mergePersistentFlags fuel (Some c) s1 = (Ok tt, s2)
    ∧ ∀ n, local_flag (heap s2) c n = chain_persistent (heap s) l n.
Proof.
  intros Hanc Hfuel Hwf.
  destruct (ancestry_inv _ _ _ Hanc) as (k & l' & Hc & Heq). simplify_eq.
  pose proof (ancestry_head_fresh _ _ _ Hanc) as Hfresh.
  set (s1 := upd c (reset_flags k) s).
  assert (heap s1 !! c = Some (reset_flags k)) as Hc1 by apply lookup_insert_eq.
  assert (∀ p : addr, p ≠ c → heap s1 !! p = heap s !! p) as Hother.
  { intros p Hp. simpl. by rewrite lookup_insert_ne. }
  assert (ancestry (heap s1) c (c :: l')) as Hanc1.
  { eapply ancestry_same_parents; [|exact Hanc]. intros a ka Ha Hka.
    destruct (decide (a = c)) as [->|Hac].
    - exists (reset_flags k). split; [done|]. by simplify_eq.
    - exists ka. by rewrite Hother. }
  exists s1, (merge_all c (c :: l') s1).
  split; [by apply ResetFlags_spec|]. unfold mergePersistentFlags.
  rewrite (rmerge_ancestry fuel c _ c _ s1 Hc1 Hanc1 Hfuel). split; [done|].
  intros n.
  rewrite (local_flag_merge_all c (c :: l') s1 n (ex_intro _ _ Hc1)
             (ancestry_valid _ _ _ Hanc1)).
  assert (local_flag (heap s1) c n = None) as ->.
  { unfold local_flag. rewrite Hc1. apply lookup_empty. }
  assert (chain_first (heap s1) (c :: l') n = chain_first (heap s1) l' n) as ->.
  { cbn [chain_first]. unfold the_pflags_at. rewrite Hc1.
    unfold pflag.VisitAll. cbn [fmap option_fmap option_map mbind option_bind].
    change (pflag.formal (the_pflags (reset_flags k))) with (∅ : gmap string pflag.Flag).
    by rewrite map_to_list_empty. }
  rewrite (chain_first_same_on (heap s) (heap s1) l' n).
  - by apply chain_first_wf.
  - intros p Hp. unfold the_pflags_at. rewrite Hother; [done|].
    intros ->. done.
Qed.

Lemma ResetFlags_then_merge_witness :
  (∃ s1 s2,
     ResetFlags (Some 3%positive) generations_own = (Ok tt, s1)
     ∧ mergePersistentFlags 3 (Some 3%positive) s1 = (Ok tt, s2)
     ∧ ∀ n, local_flag (heap s2) 3%positive n
            = chain_persistent (heap generations_own) [2; 1]%positive n)
  ∧ local_flag
      (heap (mergePersistentFlags 3 (Some 3%positive)
               (ResetFlags (Some 3%positive) generations_own).2).2)
      3%positive "x" = Some (flag_x 20 "of the parent").
Proof.
  split; [|by vm_compute].
  apply (ResetFlags_then_merge 3 3%positive [2; 1]%positive generations_own).
  - solve_generations.
  - simpl. lia.
  - intros b kb Hb. apply generations_own_wf. by right.
Defined.

(** * The template helpers *)

(** X20: [Gt] is a strict order on values of any kinds, mixed or not:
    from [Gt a b] and [Gt b c] follows [Gt a c], and [Gt] then holds in
    neither opposite direction. *)
Theorem Gt_strict_order ParseInt a b c :
  Gt ParseInt a b = true →
  Gt ParseInt b c = true →
  Gt ParseInt a c = true
  ∧ Gt ParseInt b a = false ∧ Gt ParseInt c b = false
  ∧ Gt ParseInt a a = false.
Proof.
  unfold Gt. cbv zeta. intros H1%bool_decide_eq_true H2%bool_decide_eq_true.
  split_and!; [apply bool_decide_eq_true|apply bool_decide_eq_false..]; lia.
Qed.

Lemma Gt_strict_order_witness :
  let ParseInt := λ s : string, if decide (s = "2") then 2%Z else 0%Z in
  Gt ParseInt (OfSeq 3) (OfInt 0) = true
  ∧ Gt ParseInt (OfString "2") (OfSeq 3) = false
  ∧ Gt ParseInt (OfInt 0) (OfString "2") = false
  ∧ Gt ParseInt (OfSeq 3) (OfSeq 3) = false.
Proof.
  intros ParseInt.
  apply (Gt_strict_order ParseInt (OfSeq 3) (OfString "2") (OfInt 0));
    by vm_compute.
Defined.

(** X21: the test [gt .Commands 0] of the usage template holds exactly
    when [HasSubCommands] does. *)
Theorem Gt_Commands_is_HasSubCommands ParseInt k :
  Gt ParseInt (OfSeq (Z.of_nat (length (commands k)))) (OfInt 0)
  = HasSubCommands k.
Proof.
  unfold Gt, HasSubCommands. cbv zeta. simpl.
  apply bool_decide_ext. lia.
Qed.

(** X22: [Eq] of a value with itself returns true exactly for signed
    integers and strings; on a sequence it panics, and on every other
    kind (booleans, unsigned integers, floats, nil) it returns false. *)
Theorem Eq_reflexive_on_ints_and_strings describe a :
  (Eq describe a a = Ok true ↔ (∃ i, a = OfInt i) ∨ (∃ s, a = OfString s))
  ∧ (Eq describe a a = Panic eq_unsupported ↔ ∃ len, a = OfSeq len)
  ∧ (Eq describe a a = Ok false ↔ a = OfOther).
Proof.
  destruct a as [len|i|s|]; simpl; rewrite ?bool_decide_eq_true_2 by done;
    split_and!; split; intros H;
    repeat match goal with
           | H : _ ∨ _ |- _ => destruct H
           | H : ∃ _, _ |- _ => destruct H
           end; try done; eauto.
Qed.

(** * [commentifyString] *)

Lemma Split_nonempty sep s : Split sep s ≠ [].
Proof.
  destruct s as [|a s]; simpl; [done|].
  destruct (Ascii.eqb a sep); [done|]. by destruct (Split sep s).
Qed.

Lemma Split_no_sep sep s : occurs sep s = false → Split sep s = [s].
Proof.
  induction s as [|a s IH]; simpl; [done|].
  intros [Ha Hs]%orb_false_iff. rewrite Ha. by rewrite IH.
Qed.

Lemma Split_app_sep sep x rest :
  occurs sep x = false →
  Split sep (x +:+ String sep rest) = x :: Split sep rest.
Proof.
  induction x as [|a x IH]; simpl.
  - intros _. by rewrite Ascii.eqb_refl.
  - intros [Ha Hx]%orb_false_iff. rewrite Ha.
    change (String.append x (String sep rest)) with (x +:+ String sep rest).
    by rewrite IH.
Qed.

Lemma Split_pieces sep s : Forall (λ l, occurs sep l = false) (Split sep s).
Proof.
  induction s as [|a s IH]; simpl; [by repeat constructor|].
  destruct (Ascii.eqb a sep) eqn:Ha; [by constructor|].
  destruct (Split sep s) as [|line lines].
  { constructor; [simpl; by rewrite Ha|constructor]. }
  apply Forall_cons in IH as [Hl Hls].
  constructor; [|done]. simpl. by rewrite Ha, Hl.
Qed.

(** Splitting what was joined gives the pieces back. *)
Lemma Split_Join sep ls :
  ls ≠ [] →
  Forall (λ l, occurs sep l = false) ls →
  Split sep (Join ls (String sep "")) = ls.
Proof.
  unfold Join. induction ls as [|x ls IH]; [done|]. intros _ Hall.
  apply Forall_cons in Hall as [Hx Hls].
  destruct ls as [|y ls]; [by apply Split_no_sep|].
  change (String.concat (String sep "") (x :: y :: ls))
    with (x +:+ String sep (String.concat (String sep "") (y :: ls))).
  rewrite Split_app_sep by done. by rewrite IH.
Qed.

(** Joining the pieces of a split with the separator gives the string
    back. *)
Lemma Join_Split_aux sep s : Join (Split sep s) (String sep "") = s.
Proof.
  unfold Join. induction s as [|a s IH]; simpl; [done|].
  destruct (Ascii.eqb a sep) eqn:Ha.
  - apply Ascii.eqb_eq in Ha as ->.
    pose proof (Split_nonempty sep s) as Hne.
    destruct (Split sep s) as [|l ls]; [done|]. simpl in *. by rewrite IH.
  - pose proof (Split_nonempty sep s) as Hne.
    destruct (Split sep s) as [|l ls]; [done|].
    destruct ls as [|l' ls]; simpl in *; by rewrite <- IH.
Qed.

Lemma commentify_line_prefix l : HasPrefix (commentify_line l) "//" = true.
Proof.
  unfold commentify_line. destruct (HasPrefix l "//") eqn:H; [done|].
  by case_decide.
Qed.

Lemma commentify_line_idem l :
  commentify_line (commentify_line l) = commentify_line l.
Proof.
  unfold commentify_line at 1. by rewrite commentify_line_prefix.
Qed.

Lemma commentify_line_no_newline l :
  occurs newline_char l = false →
  occurs newline_char (commentify_line l) = false.
Proof.
  intros Hl. unfold commentify_line. destruct (HasPrefix l "//"); [done|].
  case_decide; [done|]. simpl. exact Hl.
Qed.

(** The lines of the result are the commented lines of the input. *)
Lemma Split_commentifyString s :
  Split newline_char (commentifyString s)
  = map commentify_line (Split newline_char s).
Proof.
  unfold commentifyString. cbv zeta.
  change newline with (String newline_char "").
  apply Split_Join.
  - pose proof (Split_nonempty newline_char s).
    by destruct (Split newline_char s).
  - apply Forall_map. eapply Forall_impl; [apply Split_pieces|].
    intros l. apply commentify_line_no_newline.
Qed.

(** X23: [commentifyString] keeps the number of lines and makes every
    line start with two slashes. *)
Theorem commentifyString_lines s :
  length (Split newline_char (commentifyString s))
    = length (Split newline_char s)
  ∧ Forall (λ l, HasPrefix l "//" = true)
      (Split newline_char (commentifyString s)).
Proof.
  rewrite Split_commentifyString. split; [apply length_map|].
  apply Forall_map, Forall_true. intros l. apply commentify_line_prefix.
Qed.

(** X24: [commentifyString] is idempotent. *)
Theorem commentifyString_idempotent s :
  commentifyString (commentifyString s) = commentifyString s.
Proof.
  unfold commentifyString at 1. cbv zeta. rewrite Split_commentifyString.
  rewrite map_map. unfold commentifyString. cbv zeta. f_equal.
  apply map_ext. intros l. apply commentify_line_idem.
Qed.

(** X25: a text in which every line starts with two slashes already is
    returned as it is. *)
Theorem commentifyString_commented s :
  Forall (λ l, HasPrefix l "//" = true) (Split newline_char s) →
  commentifyString s = s.
Proof.
  intros Hall. unfold commentifyString. cbv zeta.
  rewrite <- (Join_Split_aux newline_char s) at 2.
  change newline with (String newline_char ""). f_equal.
  rewrite <- (map_id (Split newline_char s)) at 2.
  apply map_ext_Forall. eapply Forall_impl; [exact Hall|].
  intros l Hl. unfold commentify_line. by rewrite Hl.
Qed.

Lemma commentifyString_commented_witness :
  commentifyString ("// a" +:+ newline +:+ "//" +:+ newline +:+ "//b")
  = "// a" +:+ newline +:+ "//" +:+ newline +:+ "//b".
Proof.
  apply (commentifyString_commented
           ("// a" +:+ newline +:+ "//" +:+ newline +:+ "//b")).
  vm_compute. repeat constructor.
Defined.

(** * Closed heaps *)

Lemma closed_upd (a : addr) k' s :
  closed (heap s) →
  Forall (allocated (heap s)) (commands k') →
  closed (heap (upd a k' s)).
Proof.
  intros Hcl Hk' b kb Hb. simpl in Hb. rewrite lookup_insert in Hb.
  case_decide; simplify_eq.
  - eapply Forall_impl; [exact Hk'|]. intros y. apply allocated_upd.
  - eapply Forall_impl; [exact (Hcl b kb Hb)|]. intros y. apply allocated_upd.
Qed.

(** X26: [AddCommand] keeps the heap closed: when every child pointer of
    the heap leads to a node and the arguments are nodes other than the
    receiver, the call returns and every child pointer of the heap it
    leaves leads to a node again, so that [Find] cannot fault on it. *)
Theorem AddCommand_keeps_closed (c : addr) cmds s kc :
  closed (heap s) →
  heap s !! c = Some kc →
  Forall (allocated (heap s)) cmds →
  Some c ∉ cmds →
  ∃ s', AddCommand (Some c) cmds s = (Ok tt, s') ∧ closed (heap s').
Proof.
  revert s kc. induction cmds as [|x rest IH]; intros s kc Hcl Hc Hall Hnin.
  { by exists s. }
  apply not_elem_of_cons in Hnin as [Hxc Hnin].
  apply Forall_cons in Hall as [(a & -> & [ka Ha]) Hall].
  assert (a ≠ c) as Hac by congruence.
  pose proof (AddCommand_cons c kc a ka rest s Hac Hc Ha) as Hstep.
  set (ka' := set_cmdr (cmdr kc) (set_parent (Some c) ka)) in *.
  set (kc' := set_commands (commands kc ++ [Some a]) kc) in *.
  set (s1 := upd a ka' s) in *.
  assert (closed (heap s1)) as Hcl1 by (apply closed_upd; [done|]; exact (Hcl a ka Ha)).
  assert (closed (heap (upd c kc' s1))) as Hcl3.
  { apply closed_upd; [done|]. simpl. apply Forall_app. split.
    - eapply Forall_impl; [exact (Hcl c kc Hc)|]. intros y. apply allocated_upd.
    - apply Forall_singleton. exists a. split; [done|].
      simpl. rewrite lookup_insert_eq. by eexists. }
  destruct (IH (upd c kc' s1) kc' Hcl3) as (s' & Hrun & Hcl').
  - apply lookup_insert_eq.
  - eapply Forall_impl; [exact Hall|]. intros y Hy. by do 2 apply allocated_upd.
  - done.
  - exists s'. split; [exact (eq_trans Hstep Hrun)|done].
Qed.

Lemma three_nodes_closed : closed (heap three_nodes).
Proof.
  intros a k H. unfold three_nodes in H. simpl in H.
  lookup_cases H; apply Forall_nil_2.
Qed.

Lemma AddCommand_keeps_closed_witness :
  ∃ s',
    AddCommand (Some 1%positive) [Some 2; Some 3]%positive three_nodes = (Ok tt, s')
    ∧ closed (heap s').
Proof.
  apply (AddCommand_keeps_closed 1%positive [Some 2; Some 3]%positive three_nodes
           (set_cmdr (Some 1%positive) (new_Command "app" None))).
  - exact three_nodes_closed.
  - by vm_compute.
  - repeat (apply Forall_cons_2; [solve_allocated|]). apply Forall_nil_2.
  - intros Hin. repeat (apply elem_of_cons in Hin as [Hin|Hin]; [done|]).
    by apply elem_of_nil in Hin.
Defined.
